(** * goscheme: a shallow embedding of [scheme.go]

    The Go program is a reader and a tree-walking evaluator for a small
    Lisp.  Every Go function becomes a Rocq function of the same name.
    A Go [panic] is an explicit result ([Panic msg], with the message of
    the source); Go's [(value, error)] returns are [Ok]/[Err]. Recursion
    that is not structural (the reader, which recurses on the cursor, and
    the evaluator, which recurses on forms taken out of a list by helper
    calls) is driven by a fuel counter; [read] and [eval] supply a fuel
    that is proved sufficient. *)

From Stdlib Require Import ZArith Lia String Ascii List Bool.
From stdpp Require Import gmap strings.

Local Open Scope string_scope.
Local Open Scope Z_scope.

(** ** Results of Go calls *)

(** What a Go call can do: return, or panic with a message.  [OutOfFuel]
    belongs to the embedding only (a fuel-driven definition that was given
    too little fuel); no theorem below leaves it as a possible result. *)
Inductive outcome (A : Type) : Type :=
| Ret (a : A)
| Panic (msg : string)
| OutOfFuel.
Arguments Ret {A} a.
Arguments Panic {A} msg.
Arguments OutOfFuel {A}.

Definition bind {A B : Type} (m : outcome A) (k : A -> outcome B) : outcome B :=
  match m with
  | Ret a => k a
  | Panic msg => Panic msg
  | OutOfFuel => OutOfFuel
  end.

Notation "x <- m ;; k" := (bind m (fun x => k))
  (at level 100, m at next level, right associativity).

(** Go's [error] values are all built by [errors.New]. *)
Inductive error : Type :=
| errors_New (msg : string).

(** A Go return [(a, err)]: [Ok a] is [(a, nil)], [Err e] is [(nil, e)]. *)
Inductive result (A : Type) : Type :=
| Ok (a : A)
| Err (e : error).
Arguments Ok {A} a.
Arguments Err {A} e.

(** ** The value model *)

(** [builtin.f] holds a Go function value.  The program has two functions
    of that type, so the field is the name of one of them. *)
Inductive native : Type :=
| native_builtinPlus
| native_builtinMul.

(** The types implementing the interface [val], and the two of them
    ([empty], [*cons]) that also implement [seq].  [number.i] is an int64,
    held in a [Z]. *)
Inductive val : Type :=
| symbol (name : string)
| number (i : Z)
| boolean (b : bool)
| builtin (name : string) (f : native)
| seq_val (sq : seq)
with seq : Type :=
| empty
| cons (car : val) (cdr : seq).

Coercion seq_val : seq >-> val.

Scheme val_seq_ind := Induction for val Sort Prop
  with seq_val_ind := Induction for seq Sort Prop.
Combined Scheme val_seq_mutind from val_seq_ind, seq_val_ind.

(** The Go dynamic type of a value: what a type assertion looks at. *)
Inductive dyntype : Type :=
| T_empty | T_cons | T_symbol | T_number | T_boolean | T_builtin.

Definition typeOf (v : val) : dyntype :=
  match v with
  | symbol _ => T_symbol
  | number _ => T_number
  | boolean _ => T_boolean
  | builtin _ _ => T_builtin
  | seq_val empty => T_empty
  | seq_val (cons _ _) => T_cons
  end.

(** The five variants of the value model: both sequence types are one
    variant. *)
Inductive variant : Type :=
| Number | Boolean | Symbol | Sequence | Function.

Definition variantOf (v : val) : variant :=
  match v with
  | symbol _ => Symbol
  | number _ => Number
  | boolean _ => Boolean
  | builtin _ _ => Function
  | seq_val _ => Sequence
  end.

(** *** Sequence methods *)

Definition seq_empty (sq : seq) : bool :=
  match sq with
  | empty => true
  | cons _ _ => false
  end.

Definition first (sq : seq) : outcome val :=
  match sq with
  | empty => Panic "first called on empty"
  | cons car _ => Ret car
  end.

Definition rest (sq : seq) : outcome seq :=
  match sq with
  | empty => Panic "rest called on empty"
  | cons _ cdr => Ret cdr
  end.

(** *** Printing *)

Definition int64_min : Z := - 2 ^ 63.
Definition int64_max : Z := 2 ^ 63 - 1.
Definition uint64_max : Z := 2 ^ 64 - 1.

Definition in_int64 (i : Z) : Prop := int64_min <= i <= int64_max.

(** [byte('0' + d)] *)
Definition digit (d : Z) : ascii := ascii_of_N (48 + Z.to_N d).

(** The digit loop of Go's [fmt] for base 10:
    [for u >= 10 { i--; next := u / 10; buf[i] = byte('0' + u - next*10); u = next }
     i--; buf[i] = digits[u]].
    [buf] is the part of the buffer already written; the counter bounds
    the iterations (a uint64 has at most 20 digits). *)
Fixpoint fmt_digits (n : nat) (u : Z) (buf : string) : string :=
  match n with
  | O => buf
  | S k =>
      if 10 <=? u
      then let next := u / 10 in
           fmt_digits k next (String (digit (u - next * 10)) buf)
      else String (digit u) buf
  end.

(** [fmt.Sprintf("%v", i)] for an int64 [i]: the decimal digits of the
    magnitude, after a ["-"] when [i] is negative. *)
Definition fmt_int64 (i : Z) : string :=
  let negative := i <? 0 in
  let u := if negative then - i else i in
  let buf := fmt_digits 20 u "" in
  if negative then String "-" buf else buf.

(** [pr], one branch per method.  [pr_loop s sq] is the loop of
    the [pr] method of [cons], started with the string [s] built so far and the
    sequence [sq] still to print. *)
Fixpoint pr (v : val) : string :=
  match v with
  | seq_val empty => "()"
  | seq_val (cons car cdr) => pr_loop ("(" ++ pr car) cdr ++ ")"
  | symbol name => name
  | number i => fmt_int64 i
  | boolean b => if b then "#t" else "#f"
  | builtin name _ => "#<function:" ++ name ++ ">"
  end
with pr_loop (s : string) (sq : seq) : string :=
  match sq with
  | empty => s
  | cons x r => pr_loop (s ++ " " ++ pr x) r
  end.

(** *** Structural equality *)

(** [equal v other] is [v.equal(other)], [v] the receiver.  [&&] does not
    evaluate its right operand when the left one is false. *)
Fixpoint equal (v other : val) : outcome bool :=
  match v with
  | seq_val sq => equal_seq sq other
  | symbol name =>
      match other with
      | symbol name' => Ret (String.eqb name name')
      | _ => Ret false
      end
  | number i =>
      match other with
      | number i' => Ret (i =? i')
      | _ => Ret false
      end
  | boolean b =>
      match other with
      | boolean b' => Ret (Bool.eqb b b')
      | _ => Ret false
      end
  | builtin _ _ => Panic "you should not compare functions!"
  end
with equal_seq (sq : seq) (other : val) : outcome bool :=
  match sq with
  | empty =>
      match other with
      | seq_val empty => Ret true
      | _ => Ret false
      end
  | cons car cdr =>
      match other with
      | seq_val (cons car' cdr') =>
          b <- equal car car' ;;
          if b then equal_seq cdr (seq_val cdr') else Ret false
      | _ => Ret false
      end
  end.

Definition isTrue (v : val) : bool :=
  match v with
  | boolean b => b
  | _ => true
  end.

(** ** Library functions the reader calls *)

(** [unicode.IsSpace] on a rune made from one byte (the Latin-1 range):
    tab, newline, vertical tab, form feed, carriage return, space, U+0085
    and U+00A0. *)
Definition IsSpace (c : ascii) : bool :=
  let n := N_of_ascii c in
  ((n =? 9) || (n =? 10) || (n =? 11) || (n =? 12) || (n =? 13) || (n =? 32)
   || (n =? 133) || (n =? 160))%N.

Inductive NumError : Type :=
| ErrSyntax
| ErrRange.

Definition wrap_uint64 (z : Z) : Z := z mod 2 ^ 64.

(** Conversion to int64: the value modulo 2^64, in [-2^63, 2^63). *)
Definition wrap_int64 (z : Z) : Z := (z + 2 ^ 63) mod 2 ^ 64 - 2 ^ 63.

Definition is_digit (c : ascii) : bool :=
  ((48 <=? N_of_ascii c) && (N_of_ascii c <=? 57))%N.

(** The loop of [strconv.ParseUint(s, 10, 64)] over the bytes of [s],
    [n] the value read so far.  A byte that is not a decimal digit is a
    syntax error (a letter is a digit value of 10 or more, refused for base
    10; an underscore is accepted for base 0 only); a value that would not
    fit in 64 bits is a range error, returned with the largest uint64. *)
Fixpoint ParseUint_loop (n : Z) (s : string) : Z * option NumError :=
  match s with
  | EmptyString => (n, None)
  | String c s' =>
      if is_digit c then
        let d := Z.of_N (N_of_ascii c) - 48 in
        if uint64_max / 10 + 1 <=? n then (uint64_max, Some ErrRange)
        else
          let n := wrap_uint64 (n * 10) in
          let n1 := wrap_uint64 (n + d) in
          if (n1 <? n) || (uint64_max <? n1) then (uint64_max, Some ErrRange)
          else ParseUint_loop n1 s'
      else (0, Some ErrSyntax)
  end.

Definition ParseUint (s : string) : Z * option NumError :=
  match s with
  | EmptyString => (0, Some ErrSyntax)
  | _ => ParseUint_loop 0 s
  end.

(** [strconv.ParseInt(s, 10, 64)]: an optional sign, then [ParseUint];
    the pair is Go's [(i, err)], with [None] for a nil error. *)
Definition ParseInt (s : string) : Z * option NumError :=
  match s with
  | EmptyString => (0, Some ErrSyntax)
  | String c0 s' =>
      let neg := (c0 =? "-")%char in
      let s1 := if (c0 =? "+")%char || neg then s' else s in
      match ParseUint s1 with
      | (_, Some ErrSyntax) => (0, Some ErrSyntax)
      | (un, _) =>
          let cutoff := 2 ^ 63 in
          if negb neg && (cutoff <=? un) then (cutoff - 1, Some ErrRange)
          else if neg && (cutoff <? un) then (- cutoff, Some ErrRange)
          else
            let n := wrap_int64 un in
            (if neg then wrap_int64 (- n) else n, None)
      end
  end.

(** ** The cursor *)

(** [lexState]: the text and a byte offset into it.  The offset is never
    negative and never more than one past the text, so it is a [nat]. *)
Record lexState : Type := mkLexState { ls_s : string; ls_pos : nat }.

Definition isEOS (ls : lexState) : bool :=
  (String.length (ls_s ls) <=? ls_pos ls)%nat.

Definition advance (ls : lexState) : outcome lexState :=
  if isEOS ls then Panic "Advancing beyond EOS"
  else Ret {| ls_s := ls_s ls; ls_pos := (ls_pos ls + 1)%nat |}.

(** [rune(ls.s[ls.pos])]; indexing outside the text is Go's run-time
    panic, which the test before it excludes. *)
Definition current (ls : lexState) : outcome ascii :=
  if isEOS ls then Panic "Advancing beyond EOS"
  else match String.get (ls_pos ls) (ls_s ls) with
       | Some c => Ret c
       | None => Panic "index out of range"
       end.

(** The loop of [skipWhile]: [for !ls.isEOS() && pred(ls.current()) { ls = ls.advance() }].
    Every iteration moves the offset one byte towards the end, so the
    loop runs at most [len(ls.s) - ls.pos] times; the counter [n] starts
    there, and when it is 0 the cursor is at the end and the loop is over. *)
Fixpoint skipWhile_loop (n : nat) (pred : ascii -> bool) (ls : lexState)
  : outcome lexState :=
  match n with
  | O => Ret ls
  | S k =>
      if isEOS ls then Ret ls
      else
        c <- current ls ;;
        if pred c
        then ls' <- advance ls ;; skipWhile_loop k pred ls'
        else Ret ls
  end.

Definition skipWhile (pred : ascii -> bool) (ls : lexState) : outcome lexState :=
  skipWhile_loop (String.length (ls_s ls) - ls_pos ls) pred ls.

Definition skipWS (ls : lexState) : outcome lexState :=
  skipWhile (fun c => IsSpace c) ls.

(** [start.s[start.pos:end.pos]]; a slice expression with bounds out of
    order or past the text is Go's run-time panic. *)
Definition getToken (start end_ : lexState) : outcome string :=
  if negb (String.eqb (ls_s start) (ls_s end_))
  then Panic "Can't get token from two different strings"
  else if (ls_pos end_ <? ls_pos start)%nat
          || (String.length (ls_s start) <? ls_pos end_)%nat
       then Panic "slice bounds out of range"
       else Ret (substring (ls_pos start) (ls_pos end_ - ls_pos start) (ls_s start)).

(** ** The reader *)

(** The three results [(v, ls, nil)] and [(nil, ls, err)] of [read] and
    [readSeq]. *)
Inductive parsed (A : Type) : Type :=
| Parsed (a : A) (ls : lexState)
| Failed (ls : lexState) (err : error).
Arguments Parsed {A} a ls.
Arguments Failed {A} ls err.

(** The predicate of the atom scan in [read]. *)
Definition atom_char (c : ascii) : bool :=
  negb (IsSpace c) && negb (c =? "(")%char && negb (c =? ")")%char.

(** The methods [read] and [readSeq] of [lexState], which call each
    other. *)
Fixpoint lexState_read (fuel : nat) (ls : lexState) : outcome (parsed val) :=
  match fuel with
  | O => OutOfFuel
  | S k =>
      ls <- skipWS ls ;;
      if isEOS ls then Ret (Failed ls (errors_New "EOS"))
      else
        c <- current ls ;;
        if (c =? "#")%char then
          ls <- advance ls ;;
          if isEOS ls then Ret (Failed ls (errors_New "EOS"))
          else
            c <- current ls ;;
            ls <- advance ls ;;
            if (c =? "t")%char then Ret (Parsed (boolean true) ls)
            else if (c =? "f")%char then Ret (Parsed (boolean false) ls)
            else Ret (Failed ls (errors_New "No boolean"))
        else if (c =? "(")%char then
          ls <- advance ls ;;
          r <- lexState_readSeq k ls ;;
          match r with
          | Parsed sq ls => Ret (Parsed (seq_val sq) ls)
          | Failed ls err => Ret (Failed ls err)
          end
        else if (c =? ")")%char then
          Ret (Failed ls (errors_New "unexpected `)`"))
        else
          els <- skipWhile atom_char ls ;;
          s <- getToken ls els ;;
          match ParseInt s with
          | (_, Some _) => Ret (Parsed (symbol s) els)
          | (num, None) => Ret (Parsed (number num) els)
          end
  end
with lexState_readSeq (fuel : nat) (ls : lexState) : outcome (parsed seq) :=
  match fuel with
  | O => OutOfFuel
  | S k =>
      ls <- skipWS ls ;;
      c <- current ls ;;
      if (c =? ")")%char then
        ls <- advance ls ;;
        Ret (Parsed empty ls)
      else
        r <- lexState_read k ls ;;
        match r with
        | Failed ls err => Ret (Failed ls err)
        | Parsed car ls =>
            r <- lexState_readSeq k ls ;;
            match r with
            | Failed ls err => Ret (Failed ls err)
            | Parsed cdr ls => Ret (Parsed (cons car cdr) ls)
            end
        end
  end.

(** Fuel for a text of [n] bytes: a call of [read] that follows a call of
    [readSeq] starts at the same offset, every other nested call starts at
    least one byte further. *)
Definition read_fuel (n : nat) : nat := (2 * n + 2)%nat.

(** [read(s)]: the first form of [s]; the final cursor is dropped. *)
Definition read (s : string) : outcome (result val) :=
  let ls := {| ls_s := s; ls_pos := 0 |} in
  r <- lexState_read (read_fuel (String.length s)) ls ;;
  match r with
  | Parsed v _ => Ret (Ok v)
  | Failed _ err => Ret (Err err)
  end.

(** ** Operand extraction *)

Definition get1 (s : seq) : outcome val :=
  v <- first s ;;
  r <- rest s ;;
  if negb (seq_empty r) then Panic "Too many items in seq"
  else Ret v.

Definition get3 (s : seq) : outcome (val * val * val) :=
  v1 <- first s ;;
  s <- rest s ;;
  v2 <- first s ;;
  s <- rest s ;;
  v3 <- first s ;;
  s <- rest s ;;
  if negb (seq_empty s) then Panic ("Too many items in seq: " ++ pr (seq_val s))
  else Ret (v1, v2, v3).

(** ** Environments *)

(** The interface [env]; [lookup e name] is [e.lookup(symbol{name})], with
    [None] for a false second result. *)
Class env (E : Type) : Type := lookup : E -> string -> option val.

(** [globalEnv], a Go map from names to values. *)
Abbreviation globalEnv := (gmap string val).

#[export] Instance globalEnv_env : env globalEnv :=
  fun ge name => ge !! name.

(** ** Builtin functions *)

(** The loop of [builtinPlus], [sum] the int64 accumulator. *)
Fixpoint builtinPlus_loop (sum : Z) (args : list val) : outcome val :=
  match args with
  | [] => Ret (number sum)
  | arg :: args' =>
      match arg with
      | number i => builtinPlus_loop (wrap_int64 (sum + i)) args'
      | _ => Panic ("cannot add non-number " ++ pr arg)
      end
  end.

Definition builtinPlus (args : list val) : outcome val :=
  builtinPlus_loop 0 args.

(** The loop of [builtinMul], [prod] the int64 accumulator. *)
Fixpoint builtinMul_loop (prod : Z) (args : list val) : outcome val :=
  match args with
  | [] => Ret (number prod)
  | arg :: args' =>
      match arg with
      | number i => builtinMul_loop (wrap_int64 (prod * i)) args'
      | _ => Panic ("cannot multiply non-number " ++ pr arg)
      end
  end.

Definition builtinMul (args : list val) : outcome val :=
  builtinMul_loop 1 args.

(** [b.call(args)] is [b.f(args)]. *)
Definition call (f : native) (args : list val) : outcome val :=
  match f with
  | native_builtinPlus => builtinPlus args
  | native_builtinMul => builtinMul args
  end.

(** ** The evaluator *)

Section Eval.
Context {E : Type} `{env E}.

(** The argument loop of [evalApplication]; [args] is the slice built
    so far, [eval] the evaluator it calls. *)
Fixpoint evalArgs (eval : E -> val -> outcome val) (e : E)
    (argForms : seq) (args : list val) : outcome (list val) :=
  match argForms with
  | empty => Ret args
  | cons argForm argForms' =>
      arg <- eval e argForm ;;
      evalArgs eval e argForms' (args ++ [arg])
  end.

(** Only a [builtin] has the method [call] of the interface [function]. *)
Definition evalApplication (eval : E -> val -> outcome val) (e : E)
    (fform : val) (argForms : seq) : outcome val :=
  vf <- eval e fform ;;
  match vf with
  | builtin _ f =>
      args <- evalArgs eval e argForms [] ;;
      call f args
  | _ => Panic ("cannot apply non-function " ++ pr vf)
  end.

(** The body of [eval], its recursive calls made through the parameter
    [eval].  The cases are those of the type switch, in its order; a
    [builtin] is none of [boolean], [number], [symbol], [seq] and takes
    the default case. *)
Definition eval_body (eval : E -> val -> outcome val) (e : E) (v : val)
  : outcome val :=
  match v with
  | boolean _ => Ret v
  | number _ => Ret v
  | symbol name =>
      match lookup e name with
      | Some res => Ret res
      | None => Panic ("unbound " ++ name)
      end
  | seq_val sq =>
      head <- first sq ;;
      match head with
      | symbol hname =>
          if String.eqb hname "if" then
            tl <- rest sq ;;
            ops <- get3 tl ;;
            match ops with
            | (cond, cons_, alt) =>
                c <- eval e cond ;;
                if isTrue c then eval e cons_ else eval e alt
            end
          else if String.eqb hname "quote" then
            tl <- rest sq ;;
            quotee <- get1 tl ;;
            Ret quotee
          else
            tl <- rest sq ;;
            evalApplication eval e head tl
      | _ =>
          tl <- rest sq ;;
          evalApplication eval e head tl
      end
  | builtin _ _ => Panic ("cannot eval " ++ pr v)
  end.

Fixpoint eval_fuel (fuel : nat) (e : E) (v : val) : outcome val :=
  match fuel with
  | O => OutOfFuel
  | S k => eval_body (eval_fuel k) e v
  end.

End Eval.

(** The nesting depth of a form: every recursive call of [eval] is on an
    element of the list being evaluated. *)
Fixpoint depth (v : val) : nat :=
  match v with
  | seq_val sq => S (depth_seq sq)
  | _ => 1%nat
  end
with depth_seq (sq : seq) : nat :=
  match sq with
  | empty => 0%nat
  | cons car cdr => Nat.max (depth car) (depth_seq cdr)
  end.

(** [eval(e, v)] *)
Definition eval {E : Type} `{env E} (e : E) (v : val) : outcome val :=
  eval_fuel (depth v) e v.

(** The environment of [evalTest]. *)
Definition testEnv : globalEnv :=
  <["one" := number 1]>
    (<["+" := builtin "+" native_builtinPlus]>
       (<["*" := builtin "*" native_builtinMul]> ∅)).

(** [eval] of the form read from a text, as [evalTest] does it; a read
    error is the panic of [evalTest]. *)
Definition evalText {E : Type} `{env E} (e : E) (input : string) : outcome val :=
  r <- read input ;;
  match r with
  | Ok vinput => eval e vinput
  | Err _ => Panic "could not read"
  end.

(** ** Helper definitions for the statements *)

Fixpoint seq_length (sq : seq) : nat :=
  match sq with
  | empty => 0%nat
  | cons _ cdr => S (seq_length cdr)
  end.

Fixpoint seq_drop (n : nat) (sq : seq) : seq :=
  match n, sq with
  | O, _ => sq
  | S k, empty => empty
  | S k, cons _ cdr => seq_drop k cdr
  end.

(** The panics of the arity checks of [get1] and [get3] (the specification's
    WrongArity), and those of [first] and [rest] on the empty sequence
    (its EmptyAccess). *)
Definition WrongArity (msg : string) : Prop :=
  String.prefix "Too many items in seq" msg = true.

Definition EmptyAccess (msg : string) : Prop :=
  msg = "first called on empty" \/ msg = "rest called on empty".

(** The form [(if c a b)] and the form [(quote x)]. *)
Definition if_form (c a b : val) : val :=
  seq_val (cons (symbol "if") (cons c (cons a (cons b empty)))).

Definition quote_form (x : val) : val :=
  seq_val (cons (symbol "quote") (cons x empty)).

Definition Zsum (ns : list Z) : Z := fold_right Z.add 0 ns.
Definition Zprod (ns : list Z) : Z := fold_right Z.mul 1 ns.


Fixpoint string_forallb (p : ascii -> bool) (s : string) : bool :=
  match s with
  | EmptyString => true
  | String c s' => p c && string_forallb p s'
  end.

(** The cursor that has gone over [pre] and has [rest] before it. *)
Definition cursor (pre rest : string) : lexState :=
  {| ls_s := pre ++ rest; ls_pos := String.length pre |}.

(** A text at which the atom scan stops: the end, or a byte that is
    white space or a parenthesis. *)
Definition delimited (post : string) : bool :=
  match post with
  | EmptyString => true
  | String c _ => negb (atom_char c)
  end.

(** The texts the atom scan of [read] can return: not empty, not starting
    with the mark of a boolean, without white space or parentheses. *)
Definition is_token (t : string) : bool :=
  match t with
  | EmptyString => false
  | String c _ => negb (c =? "#")%char && string_forallb atom_char t
  end.

(** The values [read] can return: numbers of the int64 range, booleans,
    symbols whose name is a token that is not a decimal integer, and
    sequences of such values; no function. *)
Fixpoint readable (v : val) : Prop :=
  match v with
  | symbol name => is_token name = true /\ snd (ParseInt name) <> None
  | number i => in_int64 i
  | boolean _ => True
  | builtin _ _ => False
  | seq_val sq => readable_seq sq
  end
with readable_seq (sq : seq) : Prop :=
  match sq with
  | empty => True
  | cons car cdr => readable car /\ readable_seq cdr
  end.

(** What [pr] writes for the elements after the first: each one after a
    space. *)
Fixpoint pr_tail (sq : seq) : string :=
  match sq with
  | empty => ""
  | cons x r => " " ++ pr x ++ pr_tail r
  end.

(** Fuel with which [read] reads back the print form of a value. *)
Fixpoint need (v : val) : nat :=
  match v with
  | seq_val sq => S (need_seq sq)
  | _ => 1%nat
  end
with need_seq (sq : seq) : nat :=
  match sq with
  | empty => 1%nat
  | cons car cdr => S (Nat.max (need car) (need_seq cdr))
  end.

(** What [pr] writes between the parentheses of a sequence. *)
Definition pr_elems (sq : seq) : string :=
  match sq with
  | empty => ""
  | cons x r => pr x ++ pr_tail r
  end.

(** No function anywhere in a value. *)
Fixpoint function_free (v : val) : Prop :=
  match v with
  | builtin _ _ => False
  | seq_val sq => function_free_seq sq
  | _ => True
  end
with function_free_seq (sq : seq) : Prop :=
  match sq with
  | empty => True
  | cons car cdr => function_free car /\ function_free_seq cdr
  end.

(** What a successful call returns: a good value, and the cursor moved
    over a part [used], not empty, of the text [rest] that was before it. *)
Definition parsed_ok {A : Type} (good : A -> Prop) (pre rest : string)
    (r : parsed A) : Prop :=
  match r with
  | Parsed a ls =>
      good a /\
      exists used rest',
        rest = used ++ rest' /\ used <> "" /\ ls = cursor (pre ++ used) rest'
  | Failed _ _ => True
  end.

(** ** The test drivers *)

(** The byte written for [\n]. *)
Definition newline : string := String (ascii_of_N 10) "".

(** [readTest(s)]; [out] is what has been written to the standard output
    before the call, the result holds what has been written after it. *)
Definition readTest (s : string) (out : string) : outcome (val * string) :=
  r <- read s ;;
  match r with
  | Err _ => Panic "could not read"
  | Ok v => Ret (v, out ++ "`" ++ s ++ "` => " ++ pr v ++ newline)
  end.

(** [evalTest(input, expected)], with the standard output as for
    [readTest]. *)
Definition evalTest (input expected : string) (out : string) : outcome string :=
  let e := testEnv in
  r <- read input ;;
  match r with
  | Err _ => Panic "could not read"
  | Ok vinput =>
      vresult <- eval e vinput ;;
      _ <- (if negb (String.eqb expected "") then
              r <- read expected ;;
              match r with
              | Err _ => Panic "could not read"
              | Ok vexpected =>
                  b <- equal vexpected vresult ;;
                  if negb b
                  then Panic ("(eval(" ++ pr vinput ++ ") => " ++ pr vresult
                              ++ ") != " ++ pr vexpected)
                  else Ret tt
              end
            else Ret tt) ;;
      Ret (out ++ "eval(" ++ pr vinput ++ ") => " ++ pr vresult ++ newline)
  end.

(** [main()], from an empty standard output. *)
Definition main : outcome string :=
  r <- readTest "  123  " "" ;;
  r <- readTest "1-2" (snd r) ;;
  r <- readTest "  #t" (snd r) ;;
  r <- readTest "  #f" (snd r) ;;
  r <- readTest "  12(  " (snd r) ;;
  r <- readTest "  (+ 1 2 () )" (snd r) ;;
  r <- readTest "(if #f 1 2)" (snd r) ;;
  out <- evalTest "123" "123" (snd r) ;;
  out <- evalTest "#t" "#t" out ;;
  out <- evalTest "#f" "#f" out ;;
  out <- evalTest "(if #f 1 2)" "2" out ;;
  out <- evalTest "(if 123 1 2)" "1" out ;;
  out <- evalTest "(if 123 (quote true) (quote false))" "true" out ;;
  out <- evalTest "one" "1" out ;;
  out <- evalTest "+" "" out ;;
  out <- evalTest "(+ 1 2 3)" "6" out ;;
  out <- evalTest ("(" ++ "* 3 4)") "12" out ;;
  out <- evalTest ("((if #t + *" ++ ") 3 4)") "7" out ;;
  out <- evalTest ("((if #f + *" ++ ") 3 4)") "12" out ;;
  Ret out.

(** ** More helper definitions for the statements *)

Fixpoint seq_to_list (sq : seq) : list val :=
  match sq with
  | empty => []
  | cons car cdr => car :: seq_to_list cdr
  end.

Fixpoint seq_of_list (l : list val) : seq :=
  match l with
  | [] => empty
  | x :: l' => cons x (seq_of_list l')
  end.

(** The errors [read] builds. *)
Definition read_error (err : error) : Prop :=
  err = errors_New "EOS" \/ err = errors_New "No boolean"
  \/ err = errors_New "unexpected `)`".

(** The panics [eval] can end in: those of [eval] and [evalApplication]
    themselves, of [first], of the arity checks and of the two builtins. *)
Definition eval_panic (msg : string) : Prop :=
  (exists name, msg = "unbound " ++ name) \/
  msg = "first called on empty" \/
  msg = "Too many items in seq" \/
  (exists sq, msg = "Too many items in seq: " ++ pr (seq_val sq)) \/
  (exists v, msg = "cannot apply non-function " ++ pr v) \/
  (exists v, msg = "cannot eval " ++ pr v) \/
  (exists v, msg = "cannot add non-number " ++ pr v) \/
  (exists v, msg = "cannot multiply non-number " ++ pr v).

(** A form that is a list whose first element is not one of the two
    special names. *)
Definition special_head (head : val) : bool :=
  match head with
  | symbol hname => String.eqb hname "if" || String.eqb hname "quote"
  | _ => false
  end.

(** What a call of [read] or [readSeq] can end in. *)
Definition reader_outcome {A : Type} (r : outcome (parsed A)) : Prop :=
  match r with
  | Ret (Parsed _ _) => True
  | Ret (Failed _ err) => read_error err
  | Panic msg => msg = "Advancing beyond EOS"
  | OutOfFuel => True
  end.
(** * Properties *)

(** ** The tests of the source *)

Example read_123 : read "  123  " = Ret (Ok (number 123)).
Proof. vm_compute. reflexivity. Qed.
Example read_1m2 : read "1-2" = Ret (Ok (symbol "1-2")).
Proof. vm_compute. reflexivity. Qed.
Example read_12p : read "  12(  " = Ret (Ok (number 12)).
Proof. vm_compute. reflexivity. Qed.
Example read_list :
  read "  (+ 1 2 () )"
  = Ret (Ok (seq_val (cons (symbol "+") (cons (number 1) (cons (number 2)
               (cons (seq_val empty) empty)))))).
Proof. vm_compute. reflexivity. Qed.
Example read_open : read "(1 2" = Panic "Advancing beyond EOS".
Proof. vm_compute. reflexivity. Qed.
Example pr_list :
  pr (seq_val (cons (symbol "+") (cons (number (-12)) (cons (number 0)
               (cons (seq_val empty) empty))))) = "(+ -12 0 ())".
Proof. vm_compute. reflexivity. Qed.
Example parse_min : ParseInt "-9223372036854775808" = (int64_min, None).
Proof. vm_compute. reflexivity. Qed.
Example parse_over : ParseInt "9223372036854775808" = (int64_max, Some ErrRange).
Proof. vm_compute. reflexivity. Qed.
Example fmt_min : fmt_int64 int64_min = "-9223372036854775808".
Proof. vm_compute. reflexivity. Qed.
Example eval_t1 : evalText testEnv "(if #f 1 2)" = Ret (number 2).
Proof. vm_compute. reflexivity. Qed.
Example eval_t2 : evalText testEnv "(if 123 (quote true) (quote false))" = Ret (symbol "true").
Proof. vm_compute. reflexivity. Qed.
Example eval_t3 : evalText testEnv "one" = Ret (number 1).
Proof. vm_compute. reflexivity. Qed.
Example eval_t4 : evalText testEnv "(+ 1 2 3)" = Ret (number 6).
Proof. vm_compute. reflexivity. Qed.
Example eval_t5 : evalText testEnv "((if #t + *) 3 4)" = Ret (number 7).
Proof. vm_compute. reflexivity. Qed.
Example eval_t6 : evalText testEnv "((if #f + *) 3 4)" = Ret (number 12).
Proof. vm_compute. reflexivity. Qed.
Example eval_t7 : evalText testEnv "+" = Ret (builtin "+" native_builtinPlus).
Proof. vm_compute. reflexivity. Qed.
Example eval_t8 : evalText testEnv "(if #t 1)" = Panic "first called on empty".
Proof. vm_compute. reflexivity. Qed.
Example eval_t9 : evalText testEnv "(quote 1 2)" = Panic "Too many items in seq".
Proof. vm_compute. reflexivity. Qed.
Example eval_t10 : evalText testEnv "()" = Panic "first called on empty".
Proof. vm_compute. reflexivity. Qed.

(** ** The evaluator: its equation and its termination *)

Lemma depth_pos (v : val) : (1 <= depth v)%nat.
Proof. destruct v; simpl; lia. Qed.

Section EvalFacts.
Context {E : Type} `{env E}.

Lemma evalArgs_ext (f g : E -> val -> outcome val) (e : E) (sq : seq) :
  forall args,
    (forall x, (depth x <= depth_seq sq)%nat -> f e x = g e x) ->
    evalArgs f e sq args = evalArgs g e sq args.
Proof.
  induction sq as [|car cdr IH]; intros args Hfg; simpl; [reflexivity|].
  rewrite (Hfg car) by (simpl; lia).
  destruct (g e car); simpl; try reflexivity.
  apply IH. intros x Hx. apply Hfg. simpl. lia.
Qed.

Lemma evalApplication_ext (f g : E -> val -> outcome val) (e : E)
    (fform : val) (argForms : seq) :
  f e fform = g e fform ->
  (forall x, (depth x <= depth_seq argForms)%nat -> f e x = g e x) ->
  evalApplication f e fform argForms = evalApplication g e fform argForms.
Proof.
  intros Hh Ha. unfold evalApplication. rewrite Hh.
  destruct (g e fform) as [vf| |]; simpl; try reflexivity.
  destruct vf; try reflexivity.
  rewrite (evalArgs_ext f g e argForms [] Ha). reflexivity.
Qed.

Lemma eval_body_ext (f g : E -> val -> outcome val) (e : E) (v : val) :
  (forall x, (depth x < depth v)%nat -> f e x = g e x) ->
  eval_body f e v = eval_body g e v.
Proof.
  intros Hfg. destruct v as [name|i|b|name fn|sq]; try reflexivity.
  destruct sq as [|head tl]; [reflexivity|].
  assert (Happ : evalApplication f e head tl = evalApplication g e head tl).
  { apply evalApplication_ext; [|intros x Hx]; apply Hfg; simpl in *; lia. }
  unfold eval_body. cbn [first rest bind].
  destruct head as [hname| | | |]; try exact Happ.
  destruct (String.eqb hname "if"); [|destruct (String.eqb hname "quote")];
    try reflexivity; try exact Happ.
  destruct tl as [|c [|a [|b [|x tl]]]]; try reflexivity.
  cbn [get3 first rest bind seq_empty negb].
  rewrite (Hfg c), (Hfg a), (Hfg b) by (simpl; lia). reflexivity.
Qed.

Lemma eval_fuel_agree (e : E) :
  forall n m v, (depth v <= n)%nat -> (depth v <= m)%nat ->
    eval_fuel n e v = eval_fuel m e v.
Proof.
  induction n as [|n IH]; intros m v Hn Hm.
  - pose proof (depth_pos v). lia.
  - destruct m as [|m]; [pose proof (depth_pos v); lia|].
    simpl. apply eval_body_ext. intros x Hx. apply IH; lia.
Qed.

(** [eval] satisfies the equation of the source. *)
Lemma eval_unfold (e : E) (v : val) : eval e v = eval_body eval e v.
Proof.
  unfold eval at 1. pose proof (depth_pos v) as Hv.
  destruct (depth v) as [|k] eqn:Hd; [lia|].
  simpl. apply eval_body_ext. intros x Hx.
  unfold eval. apply eval_fuel_agree; lia.
Qed.

Lemma call_total (f : native) (args : list val) : call f args <> OutOfFuel.
Proof.
  destruct f; simpl.
  - unfold builtinPlus. generalize 0. induction args as [|a args IH]; intros z;
      simpl; [discriminate|]. destruct a; try discriminate. apply IH.
  - unfold builtinMul. generalize 1. induction args as [|a args IH]; intros z;
      simpl; [discriminate|]. destruct a; try discriminate. apply IH.
Qed.

Lemma evalArgs_total (e : E) (sq : seq) :
  (forall x, (depth x <= depth_seq sq)%nat -> eval e x <> OutOfFuel) ->
  forall args, evalArgs eval e sq args <> OutOfFuel.
Proof.
  induction sq as [|car cdr IH]; intros Hsub args; simpl; [discriminate|].
  pose proof (Hsub car) as Hcar.
  destruct (eval e car); simpl; try discriminate.
  - apply IH. intros x Hx. apply Hsub. simpl. lia.
  - exfalso. apply Hcar; [simpl; lia | reflexivity].
Qed.

(** [eval] terminates on every form: the fuel it is given is enough. *)
Lemma eval_total (e : E) : forall v, eval e v <> OutOfFuel.
Proof.
  intros v. remember (depth v) as n eqn:Hn.
  assert (Hle : (depth v <= n)%nat) by lia. clear Hn. revert v Hle.
  induction n as [|n IH]; intros v Hle; [pose proof (depth_pos v); lia|].
  rewrite eval_unfold.
  destruct v as [name|i|b|name fn|sq]; simpl; try discriminate.
  - destruct (lookup e name); discriminate.
  - destruct sq as [|head tl]; simpl; [discriminate|]. simpl in Hle.
    assert (Hsub : forall x, (depth x <= depth_seq (cons head tl))%nat ->
                             eval e x <> OutOfFuel).
    { intros x Hx. apply IH. simpl in Hx. lia. }
    assert (Happ : evalApplication eval e head tl <> OutOfFuel).
    { unfold evalApplication. pose proof (Hsub head) as Hh.
      destruct (eval e head) as [vf| |]; simpl; try discriminate.
      - destruct vf; try discriminate.
        pose proof (evalArgs_total e tl) as Ha.
        destruct (evalArgs eval e tl []) eqn:Hargs; simpl; try discriminate.
        + apply call_total.
        + exfalso. eapply Ha; [|exact Hargs].
          intros x Hx. apply Hsub. simpl. lia.
      - exfalso. apply Hh; [simpl; lia|reflexivity]. }
    destruct head as [hname| | | |]; try exact Happ.
    destruct (String.eqb hname "if"); [|destruct (String.eqb hname "quote")];
      try exact Happ.
    + destruct tl as [|c [|a [|b [|x tl]]]]; try discriminate.
      cbn [get3 first rest bind seq_empty negb].
      pose proof (Hsub c) as Hc. pose proof (Hsub a) as Ha.
      pose proof (Hsub b) as Hb. simpl in Hc, Ha, Hb.
      destruct (eval e c) as [vc| |]; simpl; try discriminate.
      * destruct (isTrue vc); [apply Ha|apply Hb]; lia.
      * exfalso. apply Hc; [lia|reflexivity].
    + destruct tl as [|x [|y tl]]; discriminate.
Qed.

End EvalFacts.

(** ** Equality across variants *)

(** C2, as stated, fails: with a function as the receiver and a number as
    the other operand the two variants differ, no second function is
    involved, and the comparison panics instead of returning false. *)
Lemma equal_function_receiver_counterexample :
  let v := builtin "+" native_builtinPlus in
  let w := number 1 in
  variantOf v <> variantOf w /\ variantOf w <> Function /\
  equal v w = Panic "you should not compare functions!" /\
  equal v w <> Ret false /\
  equal w v = Ret false.
Proof. cbv zeta. repeat split; simpl; discriminate. Qed.

Lemma equal_function_free :
  (forall v, function_free v -> forall w, exists b, equal v w = Ret b) /\
  (forall sq, function_free_seq sq -> forall w, exists b, equal_seq sq w = Ret b).
Proof.
  apply val_seq_mutind; cbn [function_free function_free_seq equal equal_seq].
  - intros name _ w. destruct w; eauto.
  - intros i _ w. destruct w; eauto.
  - intros b _ w. destruct w; eauto.
  - intros name f [].
  - intros sq IH Hsq w. apply IH, Hsq.
  - intros _ w. destruct w as [| | | |[|a s]]; eauto.
  - intros x IHx r IHr [Hx Hr] w. destruct w as [| | | |[|a s]]; eauto.
    destruct (IHx Hx a) as [b ->]. cbn [bind]. destruct b; eauto.
Qed.

(** C2 (amended): a comparison whose receiver is a function panics
    ("you should not compare functions!"), whatever the other operand is,
    a function included; a comparison whose receiver is not a function
    returns false whenever the two operands have different types (hence
    whenever their variants differ); and a comparison whose receiver holds
    no function returns a boolean, whatever the other operand is. *)
Theorem equal_cross_variant (v w : val) :
  (variantOf v = Function ->
   equal v w = Panic "you should not compare functions!") /\
  (variantOf v <> Function -> typeOf v <> typeOf w -> equal v w = Ret false) /\
  (variantOf v <> Function -> variantOf v <> variantOf w -> equal v w = Ret false) /\
  (function_free v -> exists b, equal v w = Ret b).
Proof.
  split; [|split; [|split]].
  - destruct v; simpl; intros Hv; try discriminate. reflexivity.
  - intros Hv Hvw. destruct v as [| | | |[|a s]]; destruct w as [| | | |[|a' s']];
      simpl in *; congruence.
  - intros Hv Hvw. destruct v as [| | | |[|a s]]; destruct w as [| | | |[|a' s']];
      simpl in *; congruence.
  - intros Hv. apply (proj1 equal_function_free), Hv.
Qed.

Lemma equal_cross_variant_witness :
  equal (builtin "*" native_builtinMul) (builtin "+" native_builtinPlus)
    = Panic "you should not compare functions!" /\
  equal (seq_val (cons (number 1) empty)) (seq_val empty) = Ret false /\
  equal (number 1) (builtin "+" native_builtinPlus) = Ret false /\
  exists b, equal (seq_val (cons (number 1) empty))
              (seq_val (cons (builtin "+" native_builtinPlus) empty)) = Ret b.
Proof.
  split; [|split; [|split]].
  - apply (equal_cross_variant (builtin "*" native_builtinMul)
             (builtin "+" native_builtinPlus)). reflexivity.
  - apply (proj1 (proj2 (equal_cross_variant
             (seq_val (cons (number 1) empty)) (seq_val empty))));
      simpl; discriminate.
  - apply (proj1 (proj2 (proj2 (equal_cross_variant
             (number 1) (builtin "+" native_builtinPlus)))));
      simpl; discriminate.
  - apply (proj2 (proj2 (proj2 (equal_cross_variant
             (seq_val (cons (number 1) empty))
             (seq_val (cons (builtin "+" native_builtinPlus) empty)))))).
    simpl. auto.
Defined.

(** ** Evaluating a function value *)



(** ** Arity of [if] and [quote] *)

Lemma read_if_short :
  read "(if #t 1)"
  = Ret (Ok (seq_val (cons (symbol "if") (cons (boolean true) (cons (number 1) empty))))).
Proof. vm_compute. reflexivity. Qed.

Lemma read_quote_long :
  read "(quote 1 2)"
  = Ret (Ok (seq_val (cons (symbol "quote") (cons (number 1) (cons (number 2) empty))))).
Proof. vm_compute. reflexivity. Qed.

(** C4, as stated, fails: evaluating [(if #t 1)] panics in [first] on the
    empty sequence (EmptyAccess); the panic is not the one of an arity
    check. *)
Lemma eval_if_short_counterexample :
  evalText testEnv "(if #t 1)" = Panic "first called on empty" /\
  EmptyAccess "first called on empty" /\
  ~ WrongArity "first called on empty".
Proof.
  split; [vm_compute; reflexivity|]. split; [left; reflexivity|].
  unfold WrongArity. simpl. discriminate.
Qed.

(** C4 (amended): an [if] form with fewer than 3 operands and a [quote]
    form with no operand panic with "first called on empty"; an [if] form
    with more than 3 operands and a [quote] form with more than 1 panic
    with "Too many items in seq" (for [if], followed by the operands after
    the third).  So [(if #t 1)] panics with "first called on empty" and
    [(quote 1 2)] with "Too many items in seq", in every environment. *)
Theorem eval_arity {E : Type} `{env E} (e : E) :
  (forall tl, (seq_length tl < 3)%nat ->
     eval e (seq_val (cons (symbol "if") tl)) = Panic "first called on empty") /\
  (forall tl, (3 < seq_length tl)%nat ->
     eval e (seq_val (cons (symbol "if") tl))
     = Panic ("Too many items in seq: " ++ pr (seq_val (seq_drop 3 tl)))) /\
  (forall tl, seq_length tl = 0%nat ->
     eval e (seq_val (cons (symbol "quote") tl)) = Panic "first called on empty") /\
  (forall tl, (1 < seq_length tl)%nat ->
     eval e (seq_val (cons (symbol "quote") tl)) = Panic "Too many items in seq") /\
  evalText e "(if #t 1)" = Panic "first called on empty" /\
  evalText e "(quote 1 2)" = Panic "Too many items in seq" /\
  WrongArity "Too many items in seq".
Proof.
  assert (Hif : forall tl, (seq_length tl < 3)%nat ->
     eval e (seq_val (cons (symbol "if") tl)) = Panic "first called on empty").
  { intros tl Hl. rewrite eval_unfold.
    destruct tl as [|c [|a [|b tl]]]; simpl in *; try reflexivity. lia. }
  assert (Hq : forall tl, (1 < seq_length tl)%nat ->
     eval e (seq_val (cons (symbol "quote") tl)) = Panic "Too many items in seq").
  { intros tl Hl. rewrite eval_unfold.
    destruct tl as [|x [|y tl]]; simpl in *; try reflexivity; lia. }
  refine (conj Hif (conj _ (conj _ (conj Hq (conj _ (conj _ _)))))).
  - intros tl Hl. rewrite eval_unfold.
    destruct tl as [|c [|a [|b [|x tl]]]]; simpl in Hl; try lia. reflexivity.
  - intros tl Hl. rewrite eval_unfold. destruct tl; simpl in *; [reflexivity|lia].
  - unfold evalText. rewrite read_if_short. simpl. apply Hif. simpl. lia.
  - unfold evalText. rewrite read_quote_long. simpl. apply Hq. simpl. lia.
  - reflexivity.
Qed.

Lemma eval_arity_witness :
  eval testEnv (seq_val (cons (symbol "if") (cons (boolean true) empty)))
    = Panic "first called on empty" /\
  eval testEnv (seq_val (cons (symbol "if")
      (cons (number 1) (cons (number 2) (cons (number 3) (cons (number 4) empty))))))
    = Panic "Too many items in seq: (4)" /\
  eval testEnv (seq_val (cons (symbol "quote") empty))
    = Panic "first called on empty" /\
  eval testEnv (seq_val (cons (symbol "quote") (cons (number 1) (cons (number 2) empty))))
    = Panic "Too many items in seq".
Proof.
  pose proof (eval_arity testEnv) as (H1 & H2 & H3 & H4 & _).
  split; [|split; [|split]].
  - apply H1. simpl. lia.
  - apply (H2 (cons (number 1) (cons (number 2) (cons (number 3) (cons (number 4) empty))))).
    simpl. lia.
  - apply H3. reflexivity.
  - apply H4. simpl. lia.
Defined.

(** ** The special forms [if] and [quote] *)

Lemma isTrue_false_iff (v : val) : isTrue v = false <-> v = boolean false.
Proof.
  split.
  - destruct v as [| |[|]| |]; simpl; intros Hv; try discriminate. reflexivity.
  - intros ->. reflexivity.
Qed.

Lemma eval_if_form {E : Type} `{env E} (e : E) (c a b : val) :
  eval e (if_form c a b)
  = (vc <- eval e c ;; if isTrue vc then eval e a else eval e b).
Proof. unfold if_form. rewrite eval_unfold. reflexivity. Qed.

(** C6: in every environment, [(if c a b)] evaluates [c] first (a panic of
    [c] is the panic of the form, whatever [a] and [b] are); when [c] has
    a value other than [boolean false] the form is worth what [a] is worth,
    whatever [b] is (also a [b] whose evaluation would panic: [b] is not
    evaluated); when [c] is worth [boolean false] the form is worth what
    [b] is worth, whatever [a] is.  Only [boolean false] is not true. *)
Theorem eval_if_truthiness {E : Type} `{env E} (e : E) (c a b : val) :
  (forall msg, eval e c = Panic msg -> eval e (if_form c a b) = Panic msg) /\
  (forall vc, eval e c = Ret vc -> vc <> boolean false ->
     isTrue vc = true /\ eval e (if_form c a b) = eval e a) /\
  (eval e c = Ret (boolean false) -> eval e (if_form c a b) = eval e b) /\
  (forall i name fname f sq,
     isTrue (boolean true) = true /\ isTrue (number i) = true /\
     isTrue (number 0) = true /\ isTrue (symbol name) = true /\
     isTrue (seq_val sq) = true /\ isTrue (builtin fname f) = true).
Proof.
  rewrite eval_if_form. split; [|split; [|split]].
  - intros msg ->. reflexivity.
  - intros vc Hc Hvc. rewrite Hc. cbn [bind].
    destruct (isTrue vc) eqn:Htrue; [split; reflexivity|].
    apply isTrue_false_iff in Htrue. contradiction.
  - intros ->. reflexivity.
  - intros i name fname f sq. repeat split.
Qed.

Lemma eval_if_truthiness_witness :
  eval testEnv (if_form (symbol "nope") (number 1) (number 2)) = Panic "unbound nope" /\
  eval testEnv (seq_val empty) = Panic "first called on empty" /\
  eval testEnv (if_form (number 0) (number 1) (seq_val empty)) = Ret (number 1) /\
  eval testEnv (if_form (boolean false) (seq_val empty) (number 2)) = Ret (number 2).
Proof.
  pose proof (eval_if_truthiness testEnv (symbol "nope") (number 1) (number 2))
    as (Hp & _).
  pose proof (eval_if_truthiness testEnv (number 0) (number 1) (seq_val empty))
    as (_ & Ht & _).
  pose proof (eval_if_truthiness testEnv (boolean false) (seq_val empty) (number 2))
    as (_ & _ & Hf & _).
  split; [|split; [|split]].
  - apply Hp. reflexivity.
  - reflexivity.
  - apply (Ht (number 0)); [reflexivity|discriminate].
  - apply Hf. reflexivity.
Defined.

Lemma read_quote_123 :
  read "(quote (1 2 3))"
  = Ret (Ok (quote_form (seq_val (cons (number 1) (cons (number 2) (cons (number 3) empty)))))).
Proof. vm_compute. reflexivity. Qed.

Lemma read_123_list :
  read "(1 2 3)"
  = Ret (Ok (seq_val (cons (number 1) (cons (number 2) (cons (number 3) empty))))).
Proof. vm_compute. reflexivity. Qed.

(** C9: in every environment, [(quote x)] evaluates to [x] itself, for
    every [x] (a list, a nested list, a form that could not be evaluated);
    and evaluating the form read from "(quote (1 2 3))" gives a value equal
    to the one read from "(1 2 3)". *)
Theorem eval_quote {E : Type} `{env E} (e : E) :
  (forall x, eval e (quote_form x) = Ret x) /\
  (exists q l r,
     read "(quote (1 2 3))" = Ret (Ok q) /\
     read "(1 2 3)" = Ret (Ok l) /\
     eval e q = Ret r /\
     equal l r = Ret true /\ equal r l = Ret true).
Proof.
  assert (Hq : forall x, eval e (quote_form x) = Ret x).
  { intros x. unfold quote_form. rewrite eval_unfold. reflexivity. }
  split; [exact Hq|].
  eexists _, _, _. split; [apply read_quote_123|].
  split; [apply read_123_list|]. split; [apply Hq|].
  split; reflexivity.
Qed.

(** ** The builtins *)

Lemma wrap_int64_shift (z k : Z) : wrap_int64 (z + k * 2 ^ 64) = wrap_int64 z.
Proof.
  unfold wrap_int64.
  replace (z + k * 2 ^ 64 + 2 ^ 63) with (z + 2 ^ 63 + k * 2 ^ 64) by ring.
  rewrite Z.mod_add by lia. reflexivity.
Qed.

Lemma wrap_int64_repr (z : Z) : exists k, wrap_int64 z = z + k * 2 ^ 64.
Proof.
  exists (- ((z + 2 ^ 63) / 2 ^ 64)). unfold wrap_int64.
  rewrite Z.mod_eq by lia. ring.
Qed.

Lemma wrap_int64_range (z : Z) : in_int64 (wrap_int64 z).
Proof.
  unfold in_int64, wrap_int64, int64_min, int64_max.
  pose proof (Z.mod_pos_bound (z + 2 ^ 63) (2 ^ 64) ltac:(lia)). lia.
Qed.

Lemma wrap_int64_id (z : Z) : in_int64 z -> wrap_int64 z = z.
Proof.
  unfold in_int64, wrap_int64, int64_min, int64_max. intros Hz.
  rewrite Z.mod_small by lia. lia.
Qed.

Lemma wrap_int64_add_l (a b : Z) : wrap_int64 (wrap_int64 a + b) = wrap_int64 (a + b).
Proof.
  destruct (wrap_int64_repr a) as [k ->].
  replace (a + k * 2 ^ 64 + b) with (a + b + k * 2 ^ 64) by ring.
  apply wrap_int64_shift.
Qed.

Lemma wrap_int64_mul_l (a b : Z) : wrap_int64 (wrap_int64 a * b) = wrap_int64 (a * b).
Proof.
  destruct (wrap_int64_repr a) as [k ->].
  replace ((a + k * 2 ^ 64) * b) with (a * b + (k * b) * 2 ^ 64) by ring.
  apply wrap_int64_shift.
Qed.

Lemma builtinPlus_loop_numbers (ns : list Z) :
  forall sum,
    builtinPlus_loop sum (map number ns)
    = Ret (number (fold_left (fun acc i => wrap_int64 (acc + i)) ns sum)).
Proof. induction ns as [|n ns IH]; intros sum; simpl; [reflexivity|apply IH]. Qed.

Lemma builtinMul_loop_numbers (ns : list Z) :
  forall prod,
    builtinMul_loop prod (map number ns)
    = Ret (number (fold_left (fun acc i => wrap_int64 (acc * i)) ns prod)).
Proof. induction ns as [|n ns IH]; intros prod; simpl; [reflexivity|apply IH]. Qed.

Lemma builtinPlus_loop_non_number (ns : list Z) (arg : val) (args : list val) :
  variantOf arg <> Number ->
  forall sum,
    builtinPlus_loop sum (map number ns ++ arg :: args)
    = Panic ("cannot add non-number " ++ pr arg).
Proof.
  intros Harg. induction ns as [|n ns IH]; intros sum; simpl; [|apply IH].
  destruct arg; simpl in *; congruence.
Qed.

Lemma builtinMul_loop_non_number (ns : list Z) (arg : val) (args : list val) :
  variantOf arg <> Number ->
  forall prod,
    builtinMul_loop prod (map number ns ++ arg :: args)
    = Panic ("cannot multiply non-number " ++ pr arg).
Proof.
  intros Harg. induction ns as [|n ns IH]; intros prod; simpl; [|apply IH].
  destruct arg; simpl in *; congruence.
Qed.

(** C7: on numbers [+] is the left fold of int64 addition from 0 and [*]
    the left fold of int64 multiplication from 1; no argument gives 0 and
    1, and the two forms without operands, read from their text, evaluate
    to them; an argument that is not a
    number, the first such, makes the call panic with its print form
    ("cannot add non-number ...", "cannot multiply non-number ..."). *)
Theorem builtin_fold :
  (forall ns, builtinPlus (map number ns)
              = Ret (number (fold_left (fun sum i => wrap_int64 (sum + i)) ns 0))) /\
  (forall ns, builtinMul (map number ns)
              = Ret (number (fold_left (fun prod i => wrap_int64 (prod * i)) ns 1))) /\
  builtinPlus [] = Ret (number 0) /\
  builtinMul [] = Ret (number 1) /\
  evalText testEnv "(+)" = Ret (number 0) /\
  evalText testEnv ("(" ++ "*" ++ ")") = Ret (number 1) /\
  (forall ns arg args, variantOf arg <> Number ->
     builtinPlus (map number ns ++ arg :: args)
     = Panic ("cannot add non-number " ++ pr arg)) /\
  (forall ns arg args, variantOf arg <> Number ->
     builtinMul (map number ns ++ arg :: args)
     = Panic ("cannot multiply non-number " ++ pr arg)).
Proof.
  split; [intros ns; apply builtinPlus_loop_numbers|].
  split; [intros ns; apply builtinMul_loop_numbers|].
  split; [reflexivity|]. split; [reflexivity|].
  split; [vm_compute; reflexivity|]. split; [vm_compute; reflexivity|].
  split; intros ns arg args Harg.
  - apply builtinPlus_loop_non_number, Harg.
  - apply builtinMul_loop_non_number, Harg.
Qed.

Lemma builtin_fold_witness :
  builtinPlus [number 1; number 2; symbol "x"; boolean true]
    = Panic "cannot add non-number x" /\
  builtinMul [number 3; seq_val (cons (number 1) empty)]
    = Panic "cannot multiply non-number (1)".
Proof.
  pose proof builtin_fold as (_ & _ & _ & _ & _ & _ & Hp & Hm).
  split.
  - apply (Hp [1; 2] (symbol "x") [boolean true]). simpl. discriminate.
  - apply (Hm [3] (seq_val (cons (number 1) empty)) []). simpl. discriminate.
Defined.

Lemma fold_add_wrap (ns : list Z) :
  forall acc,
    fold_left (fun sum i => wrap_int64 (sum + i)) ns (wrap_int64 acc)
    = wrap_int64 (acc + Zsum ns).
Proof.
  induction ns as [|n ns IH]; intros acc; simpl.
  - f_equal. lia.
  - rewrite wrap_int64_add_l, IH. f_equal. lia.
Qed.

Lemma fold_mul_wrap (ns : list Z) :
  forall acc,
    fold_left (fun prod i => wrap_int64 (prod * i)) ns (wrap_int64 acc)
    = wrap_int64 (acc * Zprod ns).
Proof.
  induction ns as [|n ns IH]; intros acc; simpl.
  - f_equal. lia.
  - rewrite wrap_int64_mul_l, IH. f_equal. lia.
Qed.

(** C10: the result of [+] (of [*]) on numbers is the mathematical sum
    (product) of the arguments reduced to int64: a value of the int64
    range that differs from it by a multiple of 2^64.  It is a number, not
    a panic, also when the sum or product is outside the range:
    [max + 1] is [min], and [2^62 * 4] is [0]. *)
Theorem builtin_wraps (ns : list Z) :
  builtinPlus (map number ns) = Ret (number (wrap_int64 (Zsum ns))) /\
  builtinMul (map number ns) = Ret (number (wrap_int64 (Zprod ns))) /\
  (forall z, in_int64 (wrap_int64 z) /\ exists k, wrap_int64 z = z + k * 2 ^ 64) /\
  builtinPlus [number int64_max; number 1] = Ret (number int64_min) /\
  builtinMul [number (2 ^ 62); number 4] = Ret (number 0).
Proof.
  split; [|split; [|split; [|split]]].
  - unfold builtinPlus. rewrite builtinPlus_loop_numbers.
    change 0 with (wrap_int64 0) at 1. rewrite fold_add_wrap. reflexivity.
  - unfold builtinMul. rewrite builtinMul_loop_numbers.
    change 1 with (wrap_int64 1) at 1. rewrite fold_mul_wrap.
    rewrite Z.mul_1_l. reflexivity.
  - intros z. split; [apply wrap_int64_range|apply wrap_int64_repr].
  - vm_compute. reflexivity.
  - vm_compute. reflexivity.
Qed.

(** ** Strings and the cursor *)

Lemma append_String (x : ascii) (a b : string) : String x a ++ b = String x (a ++ b).
Proof. reflexivity. Qed.

Lemma append_nil_l (b : string) : "" ++ b = b.
Proof. reflexivity. Qed.

Ltac simpl_append := rewrite ?append_String, ?append_nil_l in *.

Lemma append_assoc (a b c : string) : (a ++ b) ++ c = a ++ b ++ c.
Proof.
  induction a as [|x a IH]; simpl_append; [reflexivity|].
  rewrite IH. reflexivity.
Qed.

Lemma append_nil_r (a : string) : a ++ "" = a.
Proof.
  induction a as [|x a IH]; simpl_append; [reflexivity|].
  rewrite IH. reflexivity.
Qed.

Ltac norm_append := rewrite ?append_assoc, ?append_nil_r; simpl_append.

Lemma length_append (a b : string) :
  String.length (a ++ b) = (String.length a + String.length b)%nat.
Proof.
  induction a as [|x a IH]; simpl_append; simpl; [reflexivity|].
  rewrite IH. reflexivity.
Qed.

Lemma get_append_length (pre : string) (c : ascii) (rest : string) :
  String.get (String.length pre) (pre ++ String c rest) = Some c.
Proof. induction pre as [|x pre IH]; simpl_append; simpl; [reflexivity|exact IH]. Qed.

Lemma substring_append (pre mid post : string) :
  substring (String.length pre) (String.length mid) (pre ++ mid ++ post) = mid.
Proof.
  induction pre as [|x pre IH]; simpl_append; simpl; [|exact IH].
  induction mid as [|y mid IHm]; simpl_append; simpl.
  - destruct post; reflexivity.
  - rewrite IHm. reflexivity.
Qed.

Lemma cursor_snoc (pre : string) (c : ascii) (rest : string) :
  {| ls_s := pre ++ String c rest; ls_pos := (String.length pre + 1)%nat |}
  = cursor (pre ++ String c "") rest.
Proof.
  unfold cursor. rewrite append_assoc, length_append. simpl. reflexivity.
Qed.

Lemma isEOS_cursor (pre rest : string) :
  isEOS (cursor pre rest) = match rest with EmptyString => true | _ => false end.
Proof.
  unfold isEOS, cursor. simpl. rewrite length_append.
  destruct rest; simpl.
  - apply Nat.leb_le. lia.
  - apply Nat.leb_gt. lia.
Qed.

Lemma current_cursor (pre : string) (c : ascii) (rest : string) :
  current (cursor pre (String c rest)) = Ret c.
Proof.
  unfold current. rewrite isEOS_cursor. unfold cursor. simpl.
  rewrite get_append_length. reflexivity.
Qed.

Lemma current_cursor_end (pre : string) :
  current (cursor pre "") = Panic "Advancing beyond EOS".
Proof. unfold current. rewrite isEOS_cursor. reflexivity. Qed.

Lemma advance_cursor (pre : string) (c : ascii) (rest : string) :
  advance (cursor pre (String c rest)) = Ret (cursor (pre ++ String c "") rest).
Proof.
  unfold advance. rewrite isEOS_cursor. unfold cursor at 1 2. simpl.
  rewrite cursor_snoc. reflexivity.
Qed.

Lemma skipWhile_loop_cursor (pred : ascii -> bool) (mid : string) :
  forall pre post,
    string_forallb pred mid = true ->
    match post with EmptyString => true | String c _ => negb (pred c) end = true ->
    skipWhile_loop (String.length (mid ++ post)) pred (cursor pre (mid ++ post))
    = Ret (cursor (pre ++ mid) post).
Proof.
  induction mid as [|a mid IH]; intros pre post Hmid Hpost; simpl_append.
  - rewrite append_nil_r. destruct post as [|c post]; [reflexivity|].
    cbn [String.length skipWhile_loop].
    rewrite isEOS_cursor, current_cursor. cbn [bind].
    apply negb_true_iff in Hpost. rewrite Hpost. reflexivity.
  - simpl in Hmid. apply andb_true_iff in Hmid as [Ha Hmid].
    cbn [String.length skipWhile_loop].
    rewrite isEOS_cursor, current_cursor. cbn [bind]. rewrite Ha.
    rewrite advance_cursor. cbn [bind].
    rewrite (IH (pre ++ String a "") post Hmid Hpost).
    rewrite append_assoc. reflexivity.
Qed.

Lemma skipWhile_cursor (pred : ascii -> bool) (pre mid post : string) :
  string_forallb pred mid = true ->
  match post with EmptyString => true | String c _ => negb (pred c) end = true ->
  skipWhile pred (cursor pre (mid ++ post)) = Ret (cursor (pre ++ mid) post).
Proof.
  intros Hmid Hpost. unfold skipWhile.
  replace (String.length (ls_s (cursor pre (mid ++ post)))
           - ls_pos (cursor pre (mid ++ post)))%nat
    with (String.length (mid ++ post)).
  - apply skipWhile_loop_cursor; assumption.
  - unfold cursor. cbn [ls_s ls_pos]. rewrite !length_append. lia.
Qed.

Lemma skipWS_cursor (pre ws post : string) :
  string_forallb IsSpace ws = true ->
  match post with EmptyString => true | String c _ => negb (IsSpace c) end = true ->
  skipWS (cursor pre (ws ++ post)) = Ret (cursor (pre ++ ws) post).
Proof. intros Hws Hpost. unfold skipWS. apply skipWhile_cursor; assumption. Qed.

Lemma skipWS_cursor_here (pre post : string) :
  match post with EmptyString => true | String c _ => negb (IsSpace c) end = true ->
  skipWS (cursor pre post) = Ret (cursor pre post).
Proof.
  intros Hpost. pose proof (skipWS_cursor pre "" post eq_refl Hpost) as Hs.
  simpl in Hs. rewrite append_nil_r in Hs. exact Hs.
Qed.

Lemma getToken_cursor (pre mid post : string) :
  getToken (cursor pre (mid ++ post)) (cursor (pre ++ mid) post) = Ret mid.
Proof.
  unfold getToken, cursor. simpl.
  rewrite append_assoc, String.eqb_refl. simpl.
  rewrite !length_append.
  replace (String.length pre + String.length mid <? String.length pre)%nat
    with false by (symmetry; apply Nat.ltb_ge; lia).
  replace (String.length pre + (String.length mid + String.length post)
           <? String.length pre + String.length mid)%nat
    with false by (symmetry; apply Nat.ltb_ge; lia).
  simpl.
  replace (String.length pre + String.length mid - String.length pre)%nat
    with (String.length mid) by lia.
  rewrite substring_append. reflexivity.
Qed.

Lemma read_cursor (s : string) :
  read s = (r <- lexState_read (read_fuel (String.length s)) (cursor "" s) ;;
            match r with
            | Parsed v _ => Ret (Ok v)
            | Failed _ err => Ret (Err err)
            end).
Proof. reflexivity. Qed.

(** ** The reader, one call at a time *)

Lemma lexState_read_S (k : nat) (ls0 : lexState) :
  lexState_read (S k) ls0 =
  (ls <- skipWS ls0 ;;
   if isEOS ls then Ret (Failed ls (errors_New "EOS"))
   else
     c <- current ls ;;
     if (c =? "#")%char then
       ls <- advance ls ;;
       if isEOS ls then Ret (Failed ls (errors_New "EOS"))
       else
         c <- current ls ;;
         ls <- advance ls ;;
         if (c =? "t")%char then Ret (Parsed (boolean true) ls)
         else if (c =? "f")%char then Ret (Parsed (boolean false) ls)
         else Ret (Failed ls (errors_New "No boolean"))
     else if (c =? "(")%char then
       ls <- advance ls ;;
       r <- lexState_readSeq k ls ;;
       match r with
       | Parsed sq ls => Ret (Parsed (seq_val sq) ls)
       | Failed ls err => Ret (Failed ls err)
       end
     else if (c =? ")")%char then
       Ret (Failed ls (errors_New "unexpected `)`"))
     else
       els <- skipWhile atom_char ls ;;
       s <- getToken ls els ;;
       match ParseInt s with
       | (_, Some _) => Ret (Parsed (symbol s) els)
       | (num, None) => Ret (Parsed (number num) els)
       end).
Proof. reflexivity. Qed.

Lemma lexState_readSeq_S (k : nat) (ls0 : lexState) :
  lexState_readSeq (S k) ls0 =
  (ls <- skipWS ls0 ;;
   c <- current ls ;;
   if (c =? ")")%char then
     ls <- advance ls ;;
     Ret (Parsed empty ls)
   else
     r <- lexState_read k ls ;;
     match r with
     | Failed ls err => Ret (Failed ls err)
     | Parsed car ls =>
         r <- lexState_readSeq k ls ;;
         match r with
         | Failed ls err => Ret (Failed ls err)
         | Parsed cdr ls => Ret (Parsed (cons car cdr) ls)
         end
     end).
Proof. reflexivity. Qed.

Lemma read_fuel_S (n : nat) : read_fuel n = S (2 * n + 1).
Proof. unfold read_fuel. lia. Qed.

(** After white space and the mark of a boolean. *)
Lemma lexState_read_hash (k : nat) (pre ws rest : string) :
  string_forallb IsSpace ws = true ->
  lexState_read (S k) (cursor pre (ws ++ String "#" rest)) =
  match rest with
  | EmptyString =>
      Ret (Failed (cursor ((pre ++ ws) ++ "#") "") (errors_New "EOS"))
  | String c rest' =>
      let ls := cursor (((pre ++ ws) ++ "#") ++ String c "") rest' in
      if (c =? "t")%char then Ret (Parsed (boolean true) ls)
      else if (c =? "f")%char then Ret (Parsed (boolean false) ls)
      else Ret (Failed ls (errors_New "No boolean"))
  end.
Proof.
  intros Hws. rewrite lexState_read_S.
  rewrite (skipWS_cursor pre ws (String "#" rest) Hws eq_refl). cbn [bind].
  rewrite isEOS_cursor, current_cursor. cbn [bind].
  change ("#" =? "#")%char with true. cbv iota.
  rewrite advance_cursor. cbn [bind]. rewrite isEOS_cursor.
  destruct rest as [|c rest']; [reflexivity|].
  rewrite current_cursor, advance_cursor. reflexivity.
Qed.

(** ** Unterminated lists *)

(** C1 fails on the code: on "(1 2", and already on "(", [readSeq] asks
    for the current byte at the end of the text and the call panics
    ("Advancing beyond EOS") instead of returning the error "EOS"; so does
    every text made of an opening parenthesis and white space. *)
Theorem read_unterminated_list_panics :
  read "(1 2" = Panic "Advancing beyond EOS" /\
  read "(" = Panic "Advancing beyond EOS" /\
  read "(1 2" <> Ret (Err (errors_New "EOS")) /\
  (forall ws, string_forallb IsSpace ws = true ->
     read ("(" ++ ws) = Panic "Advancing beyond EOS").
Proof.
  assert (H12 : read "(1 2" = Panic "Advancing beyond EOS") by (vm_compute; reflexivity).
  split; [exact H12|]. split; [vm_compute; reflexivity|].
  split; [rewrite H12; discriminate|].
  intros ws Hws. rewrite read_cursor, read_fuel_S, lexState_read_S.
  simpl_append. rewrite (skipWS_cursor_here "" (String "(" ws) eq_refl). cbn [bind].
  rewrite isEOS_cursor, current_cursor. cbn [bind].
  change ("(" =? "#")%char with false. change ("(" =? "(")%char with true. cbv iota.
  rewrite advance_cursor. cbn [bind].
  cbn [String.length].
  replace (2 * S (String.length ws) + 1)%nat with (S (2 * String.length ws + 2)) by lia.
  rewrite lexState_readSeq_S.
  pose proof (skipWS_cursor ("" ++ "(") ws "" Hws eq_refl) as Hs.
  rewrite (append_nil_r ws) in Hs. rewrite Hs. cbn [bind].
  rewrite current_cursor_end. reflexivity.
Qed.

Lemma read_unterminated_list_panics_witness :
  read ("(" ++ " ") = Panic "Advancing beyond EOS".
Proof.
  apply (proj2 (proj2 (proj2 read_unterminated_list_panics)) " "). reflexivity.
Defined.

(** ** Boolean literals *)

(** C5, as stated, fails: when the text ends just after the mark of a
    boolean, the error is "EOS" and not "No boolean". *)
Lemma read_hash_at_end_counterexample :
  read "#" = Ret (Err (errors_New "EOS")) /\
  read "#" <> Ret (Err (errors_New "No boolean")).
Proof.
  assert (Hr : read "#" = Ret (Err (errors_New "EOS"))) by (vm_compute; reflexivity).
  split; [exact Hr|]. rewrite Hr. discriminate.
Qed.

(** C5 (amended): after any white space, the mark followed by [t] reads as
    [boolean true] and followed by [f] as [boolean false]; followed by any
    other byte it fails with the error "No boolean"; at the end of the text
    it fails with the error "EOS". *)
Theorem read_boolean_literal (ws rest : string) :
  string_forallb IsSpace ws = true ->
  read (ws ++ "#t" ++ rest) = Ret (Ok (boolean true)) /\
  read (ws ++ "#f" ++ rest) = Ret (Ok (boolean false)) /\
  (forall c, c <> "t"%char -> c <> "f"%char ->
     read (ws ++ String "#" (String c rest)) = Ret (Err (errors_New "No boolean"))) /\
  read (ws ++ "#") = Ret (Err (errors_New "EOS")).
Proof.
  intros Hws.
  assert (Hgen : forall tl,
    read (ws ++ String "#" tl)
    = (r <- lexState_read (read_fuel (String.length (ws ++ String "#" tl)))
             (cursor "" (ws ++ String "#" tl)) ;;
       match r with Parsed v _ => Ret (Ok v) | Failed _ err => Ret (Err err) end)).
  { intros tl. apply read_cursor. }
  repeat split.
  - simpl_append. rewrite Hgen, read_fuel_S, lexState_read_hash by exact Hws.
    reflexivity.
  - simpl_append. rewrite Hgen, read_fuel_S, lexState_read_hash by exact Hws.
    reflexivity.
  - intros c Ht Hf. rewrite Hgen, read_fuel_S, lexState_read_hash by exact Hws.
    apply Ascii.eqb_neq in Ht, Hf. cbv zeta. rewrite Ht, Hf. reflexivity.
  - rewrite Hgen, read_fuel_S, lexState_read_hash by exact Hws. reflexivity.
Qed.

Lemma read_boolean_literal_witness :
  read "  #t" = Ret (Ok (boolean true)) /\
  read "  #f)" = Ret (Ok (boolean false)) /\
  read " #x" = Ret (Err (errors_New "No boolean")) /\
  read " #" = Ret (Err (errors_New "EOS")).
Proof.
  pose proof (read_boolean_literal "  " "" eq_refl) as (Ht & _).
  pose proof (read_boolean_literal "  " ")" eq_refl) as (_ & Hf & _).
  pose proof (read_boolean_literal " " "" eq_refl) as (_ & _ & Hx & He).
  split; [exact Ht|]. split; [exact Hf|]. split; [|exact He].
  apply (Hx "x"%char); discriminate.
Defined.

(** ** Decimal numbers: printing and parsing *)

Lemma is_digit_atom_char (c : ascii) :
  is_digit c = true -> atom_char c = true /\ (c =? "#")%char = false
                       /\ (c =? "-")%char = false /\ (c =? "+")%char = false.
Proof.
  destruct c as [[] [] [] [] [] [] [] []]; intros Hc; try discriminate Hc;
    repeat split; reflexivity.
Qed.

Lemma digit_spec (d : Z) :
  0 <= d < 10 ->
  is_digit (digit d) = true /\ Z.of_N (N_of_ascii (digit d)) - 48 = d.
Proof.
  intros Hd. unfold digit, is_digit.
  rewrite N_ascii_embedding by lia.
  split; [|lia].
  apply andb_true_iff. split; apply N.leb_le; lia.
Qed.

Lemma ParseUint_loop_app (ds rest : string) :
  forall n m,
    ParseUint_loop n ds = (m, None) ->
    ParseUint_loop n (ds ++ rest) = ParseUint_loop m rest.
Proof.
  induction ds as [|c ds IH]; intros n m Hp; simpl_append.
  - simpl in Hp. congruence.
  - cbn [ParseUint_loop] in *.
    destruct (is_digit c); [|discriminate].
    destruct (uint64_max / 10 + 1 <=? n); [discriminate|].
    cbv zeta in *.
    destruct ((wrap_uint64 (wrap_uint64 (n * 10) + (Z.of_N (N_of_ascii c) - 48))
               <? wrap_uint64 (n * 10))
              || (uint64_max <? wrap_uint64 (wrap_uint64 (n * 10)
                                             + (Z.of_N (N_of_ascii c) - 48))));
      [discriminate|].
    apply IH. exact Hp.
Qed.

Lemma ParseUint_loop_last (u : Z) :
  0 <= u <= uint64_max ->
  ParseUint_loop (u / 10) (String (digit (u - u / 10 * 10)) "") = (u, None).
Proof.
  intros Hu. unfold uint64_max in Hu.
  assert (Hd : 0 <= u - u / 10 * 10 < 10).
  { pose proof (Z.mod_pos_bound u 10 ltac:(lia)) as Hm.
    rewrite Z.mod_eq in Hm by lia. lia. }
  destruct (digit_spec _ Hd) as [Hdig Hval].
  cbn [ParseUint_loop]. rewrite Hdig, Hval. cbv zeta.
  assert (Hq : 0 <= u / 10 /\ u / 10 * 10 <= u).
  { split; [apply Z.div_pos; lia|]. lia. }
  assert (Hcut : (uint64_max / 10 + 1 <=? u / 10) = false).
  { apply Z.leb_gt. unfold uint64_max.
    assert (u / 10 <= (2 ^ 64 - 1) / 10) by (apply Z.div_le_mono; lia). lia. }
  rewrite Hcut.
  unfold wrap_uint64.
  rewrite (Z.mod_small (u / 10 * 10)) by lia.
  replace (u / 10 * 10 + (u - u / 10 * 10)) with u by ring.
  rewrite (Z.mod_small u) by lia.
  replace (u <? u / 10 * 10) with false by (symmetry; apply Z.ltb_ge; lia).
  replace (uint64_max <? u) with false
    by (symmetry; apply Z.ltb_ge; unfold uint64_max; lia).
  reflexivity.
Qed.

Lemma ParseUint_loop_one (u : Z) :
  0 <= u < 10 -> ParseUint_loop 0 (String (digit u) "") = (u, None).
Proof.
  intros Hu. pose proof (ParseUint_loop_last u) as Hl.
  rewrite (Z.div_small u 10) in Hl by lia.
  rewrite Z.mul_0_l, Z.sub_0_r in Hl. apply Hl. unfold uint64_max. lia.
Qed.

Lemma fmt_digits_S (k : nat) (u : Z) (buf : string) :
  fmt_digits (S k) u buf =
  if 10 <=? u then fmt_digits k (u / 10) (String (digit (u - u / 10 * 10)) buf)
  else String (digit u) buf.
Proof. reflexivity. Qed.

(** The digits written by [fmt_digits] are decimal digits, at least one,
    and [ParseUint] reads the number back. *)
Lemma fmt_digits_spec (n : nat) :
  forall u buf,
    0 <= u < 10 ^ Z.of_nat (S n) -> u <= uint64_max ->
    exists ds,
      fmt_digits (S n) u buf = ds ++ buf /\
      ds <> "" /\
      string_forallb is_digit ds = true /\
      ParseUint_loop 0 ds = (u, None).
Proof.
  induction n as [|n IH]; intros u buf Hu Hmax.
  - change (10 ^ Z.of_nat 1) with 10 in Hu.
    rewrite fmt_digits_S. replace (10 <=? u) with false by (symmetry; apply Z.leb_gt; lia).
    exists (String (digit u) ""). split; [reflexivity|]. split; [discriminate|].
    split; [|apply ParseUint_loop_one; lia].
    destruct (digit_spec u ltac:(lia)) as [Hd _]. simpl. rewrite Hd. reflexivity.
  - rewrite fmt_digits_S. destruct (10 <=? u) eqn:Hge.
    + apply Z.leb_le in Hge.
      assert (Hq : 0 <= u / 10 < 10 ^ Z.of_nat (S n)).
      { split; [apply Z.div_pos; lia|].
        apply Z.div_lt_upper_bound; [lia|].
        replace (Z.of_nat (S (S n))) with (Z.of_nat (S n) + 1) in Hu by lia.
        rewrite Z.pow_add_r in Hu by lia. lia. }
      assert (Hqmax : u / 10 <= uint64_max).
      { assert (u / 10 <= u) by (apply Z.div_le_upper_bound; lia). lia. }
      destruct (IH (u / 10) (String (digit (u - u / 10 * 10)) buf) Hq Hqmax)
        as (ds & Hfmt & Hne & Hall & Hparse).
      exists (ds ++ String (digit (u - u / 10 * 10)) "").
      split; [rewrite Hfmt, append_assoc; reflexivity|].
      split; [destruct ds; [congruence|discriminate]|].
      split.
      * clear -Hall Hu Hge. assert (Hd : 0 <= u - u / 10 * 10 < 10).
        { pose proof (Z.mod_pos_bound u 10 ltac:(lia)) as Hm.
          rewrite Z.mod_eq in Hm by lia. lia. }
        destruct (digit_spec _ Hd) as [Hdig _].
        induction ds as [|c ds IHds]; simpl_append; simpl.
        -- rewrite Hdig. reflexivity.
        -- simpl in Hall. apply andb_true_iff in Hall as [Hc Hall].
           rewrite Hc. apply IHds, Hall.
      * rewrite (ParseUint_loop_app _ _ _ _ Hparse).
        apply ParseUint_loop_last. lia.
    + apply Z.leb_gt in Hge.
      exists (String (digit u) ""). split; [reflexivity|]. split; [discriminate|].
      split; [|apply ParseUint_loop_one; lia].
      destruct (digit_spec u ltac:(lia)) as [Hd _]. simpl. rewrite Hd. reflexivity.
Qed.

Lemma wrap_int64_opp (a : Z) : wrap_int64 (- wrap_int64 a) = wrap_int64 (- a).
Proof.
  destruct (wrap_int64_repr a) as [k ->].
  replace (- (a + k * 2 ^ 64)) with (- a + (- k) * 2 ^ 64) by ring.
  apply wrap_int64_shift.
Qed.

Lemma string_forallb_impl (p q : ascii -> bool) (s : string) :
  (forall c, p c = true -> q c = true) ->
  string_forallb p s = true -> string_forallb q s = true.
Proof.
  intros Hpq. induction s as [|c s IH]; simpl; [reflexivity|].
  intros Hs. apply andb_true_iff in Hs as [Hc Hs].
  rewrite (Hpq c Hc). apply IH, Hs.
Qed.

(** [ParseInt] reads back what [fmt] prints for an int64. *)
Lemma ParseInt_fmt_int64 (i : Z) :
  in_int64 i ->
  ParseInt (fmt_int64 i) = (i, None) /\ is_token (fmt_int64 i) = true.
Proof.
  unfold in_int64, int64_min, int64_max. intros Hi.
  unfold fmt_int64. destruct (i <? 0) eqn:Hneg; cbv zeta.
  - apply Z.ltb_lt in Hneg.
    destruct (fmt_digits_spec 19 (- i) "") as (ds & Hfmt & Hne & Hall & Hparse);
      [change (10 ^ Z.of_nat 20) with 100000000000000000000; lia
      |unfold uint64_max; lia|].
    rewrite append_nil_r in Hfmt. rewrite Hfmt. split.
    + cbn [ParseInt]. change ("-" =? "-")%char with true.
      change ("-" =? "+")%char with false. cbn [orb].
      unfold ParseUint. destruct ds as [|c ds]; [congruence|].
      rewrite Hparse. cbv zeta.
      replace (2 ^ 63 <? - i) with false by (symmetry; apply Z.ltb_ge; lia).
      cbn [negb andb]. rewrite wrap_int64_opp, Z.opp_involutive.
      rewrite wrap_int64_id by (unfold in_int64, int64_min, int64_max; lia).
      reflexivity.
    + cbn [is_token string_forallb]. change ("-" =? "#")%char with false.
      change (atom_char "-") with true. cbn [negb andb].
      apply (string_forallb_impl is_digit); [|exact Hall].
      intros c Hc. apply is_digit_atom_char, Hc.
  - apply Z.ltb_ge in Hneg.
    destruct (fmt_digits_spec 19 i "") as (ds & Hfmt & Hne & Hall & Hparse);
      [change (10 ^ Z.of_nat 20) with 100000000000000000000; lia
      |unfold uint64_max; lia|].
    rewrite append_nil_r in Hfmt. rewrite Hfmt.
    destruct ds as [|c ds]; [congruence|].
    pose proof Hall as Hall'. simpl in Hall'.
    apply andb_true_iff in Hall' as [Hc _].
    destruct (is_digit_atom_char c Hc) as (Hac & Hh & Hm & Hp). split.
    + cbn [ParseInt]. rewrite Hm, Hp. cbn [orb].
      unfold ParseUint. rewrite Hparse. cbv zeta.
      replace (2 ^ 63 <=? i) with false by (symmetry; apply Z.leb_gt; lia).
      cbn [negb andb]. rewrite wrap_int64_id
        by (unfold in_int64, int64_min, int64_max; lia).
      reflexivity.
    + cbn [is_token]. rewrite Hh. cbn [negb andb].
      apply (string_forallb_impl is_digit); [|exact Hall].
      intros c' Hc'. apply is_digit_atom_char, Hc'.
Qed.

Lemma ParseInt_range (s : string) (n : Z) :
  ParseInt s = (n, None) -> in_int64 n.
Proof.
  unfold ParseInt. destruct s as [|c0 s']; [discriminate|].
  destruct (ParseUint _) as [un [[|]|]]; cbv zeta; try discriminate.
  - destruct (negb (c0 =? "-")%char && (2 ^ 63 <=? un)); [discriminate|].
    destruct ((c0 =? "-")%char && (2 ^ 63 <? un)); [discriminate|].
    intros Heq. injection Heq as <-.
    destruct (c0 =? "-")%char; apply wrap_int64_range.
  - destruct (negb (c0 =? "-")%char && (2 ^ 63 <=? un)); [discriminate|].
    destruct ((c0 =? "-")%char && (2 ^ 63 <? un)); [discriminate|].
    intros Heq. injection Heq as <-.
    destruct (c0 =? "-")%char; apply wrap_int64_range.
Qed.

(** ** What [read] returns *)

Lemma span_exists (pred : ascii -> bool) (rest : string) :
  exists mid post,
    rest = mid ++ post /\
    string_forallb pred mid = true /\
    match post with EmptyString => true | String c _ => negb (pred c) end = true.
Proof.
  induction rest as [|c rest (mid & post & Heq & Hmid & Hpost)].
  - exists "", "". repeat split.
  - destruct (pred c) eqn:Hc.
    + exists (String c mid), post. simpl_append. rewrite Heq at 1.
      repeat split; [|exact Hpost]. simpl. rewrite Hc. exact Hmid.
    + exists "", (String c rest). repeat split. rewrite Hc. reflexivity.
Qed.

Lemma append_not_nil_r (a b : string) : b <> "" -> a ++ b <> "".
Proof.
  intros Hb. destruct a; simpl_append; [exact Hb|discriminate].
Qed.

Ltac solve_used used rest' :=
  exists used, rest'; split; [|split];
  [norm_append; reflexivity
  |try discriminate; try (apply append_not_nil_r; discriminate)
  |norm_append; reflexivity].

Lemma lexState_read_inv (k : nat) :
  (forall pre rest r,
     lexState_read k (cursor pre rest) = Ret r -> parsed_ok readable pre rest r) /\
  (forall pre rest r,
     lexState_readSeq k (cursor pre rest) = Ret r -> parsed_ok readable_seq pre rest r).
Proof.
  induction k as [|k [IHr IHs]]; [split; intros; discriminate|].
  split; intros pre rest r.
  - rewrite lexState_read_S.
    destruct (span_exists IsSpace rest) as (ws & post & -> & Hws & Hpost).
    rewrite (skipWS_cursor _ _ _ Hws Hpost). cbn [bind].
    rewrite isEOS_cursor. destruct post as [|c post]; [intros [= <-]; exact I|].
    rewrite current_cursor. cbn [bind].
    destruct (c =? "#")%char eqn:Hhash.
    { rewrite advance_cursor. cbn [bind]. rewrite isEOS_cursor.
      destruct post as [|c2 post]; [intros [= <-]; exact I|].
      rewrite current_cursor, advance_cursor. cbn [bind].
      destruct (c2 =? "t")%char; [|destruct (c2 =? "f")%char];
        intros [= <-]; cbn [parsed_ok readable]; try exact I;
        (split; [exact I|]); solve_used (ws ++ String c (String c2 "")) post. }
    destruct (c =? "(")%char eqn:Hopen.
    { rewrite advance_cursor. cbn [bind].
      destruct (lexState_readSeq k _) as [rs| |] eqn:Hseq; cbn [bind];
        try discriminate.
      apply IHs in Hseq. destruct rs as [sq ls|ls err]; intros [= <-]; [|exact I].
      destruct Hseq as (Hsq & used & rest' & -> & Hused & ->).
      cbn [parsed_ok readable]. split; [exact Hsq|].
      solve_used (ws ++ String c used) rest'. }
    destruct (c =? ")")%char eqn:Hclose; [intros [= <-]; exact I|].
    assert (Hc : atom_char c = true).
    { unfold atom_char. rewrite Hopen, Hclose.
      apply negb_true_iff in Hpost. rewrite Hpost. reflexivity. }
    destruct (span_exists atom_char post) as (mid & post2 & -> & Hmid & Hpost2).
    change (String c (mid ++ post2)) with (String c mid ++ post2).
    rewrite (skipWhile_cursor atom_char (pre ++ ws) (String c mid) post2)
      by (try exact Hpost2; simpl; rewrite Hc; exact Hmid).
    cbn [bind]. rewrite getToken_cursor. cbn [bind].
    destruct (ParseInt (String c mid)) as [num [err|]] eqn:HP; intros [= <-].
    + cbn [parsed_ok readable is_token string_forallb].
      split; [|solve_used (ws ++ String c mid) post2].
      rewrite Hhash, Hc, HP. cbn [negb andb snd].
      split; [exact Hmid|discriminate].
    + cbn [parsed_ok readable].
      split; [|solve_used (ws ++ String c mid) post2]. apply (ParseInt_range _ _ HP).
  - rewrite lexState_readSeq_S.
    destruct (span_exists IsSpace rest) as (ws & post & -> & Hws & Hpost).
    rewrite (skipWS_cursor _ _ _ Hws Hpost). cbn [bind].
    destruct post as [|c post]; [rewrite current_cursor_end; discriminate|].
    rewrite current_cursor. cbn [bind].
    destruct (c =? ")")%char.
    { rewrite advance_cursor. cbn [bind]. intros [= <-].
      cbn [parsed_ok readable_seq]. split; [exact I|].
      solve_used (ws ++ String c "") post. }
    destruct (lexState_read k _) as [r1| |] eqn:Hcar; cbn [bind]; try discriminate.
    apply IHr in Hcar. destruct r1 as [car ls1|ls1 err]; [|intros [= <-]; exact I].
    destruct Hcar as (Hcar & used1 & rest1 & Hrest1 & Hused1 & ->).
    destruct (lexState_readSeq k _) as [r2| |] eqn:Hcdr; cbn [bind]; try discriminate.
    apply IHs in Hcdr. destruct r2 as [cdr ls2|ls2 err]; intros [= <-]; [|exact I].
    destruct Hcdr as (Hcdr & used2 & rest2 & -> & Hused2 & ->).
    cbn [parsed_ok readable_seq]. split; [auto|].
    rewrite Hrest1. exists (ws ++ used1 ++ used2), rest2. split; [|split].
    + norm_append. reflexivity.
    + do 2 apply append_not_nil_r. exact Hused2.
    + norm_append. reflexivity.
Qed.

(** The fuel [read] gives is enough for every text: a call that has [n]
    bytes before it needs at most [2 * n + 1] ([read]) or [2 * n + 2]
    ([readSeq]). *)
Lemma lexState_read_total (k : nat) :
  (forall pre rest, (2 * String.length rest + 1 <= k)%nat ->
     lexState_read k (cursor pre rest) <> OutOfFuel) /\
  (forall pre rest, (2 * String.length rest + 2 <= k)%nat ->
     lexState_readSeq k (cursor pre rest) <> OutOfFuel).
Proof.
  induction k as [|k [IHr IHs]]; [split; intros; lia|].
  split; intros pre rest Hk.
  - rewrite lexState_read_S.
    destruct (span_exists IsSpace rest) as (ws & post & -> & Hws & Hpost).
    rewrite (skipWS_cursor _ _ _ Hws Hpost). cbn [bind].
    rewrite isEOS_cursor. destruct post as [|c post]; [discriminate|].
    rewrite current_cursor. cbn [bind].
    destruct (c =? "#")%char.
    { rewrite advance_cursor. cbn [bind]. rewrite isEOS_cursor.
      destruct post as [|c2 post]; [discriminate|].
      rewrite current_cursor, advance_cursor. cbn [bind].
      destruct (c2 =? "t")%char; [|destruct (c2 =? "f")%char]; discriminate. }
    destruct (c =? "(")%char.
    { rewrite advance_cursor. cbn [bind].
      rewrite length_append in Hk. cbn [String.length] in Hk.
      pose proof (IHs ((pre ++ ws) ++ String c "") post ltac:(lia)) as Hs.
      destruct (lexState_readSeq k _) as [[sq ls|ls err]| |]; cbn [bind];
        try discriminate. contradiction. }
    destruct (c =? ")")%char; [discriminate|].
    destruct (span_exists atom_char (String c post))
      as (mid & post2 & Heq & Hmid & Hpost2).
    rewrite Heq, (skipWhile_cursor atom_char (pre ++ ws) mid post2 Hmid Hpost2).
    cbn [bind]. rewrite getToken_cursor. cbn [bind].
    destruct (ParseInt mid) as [num [err|]]; discriminate.
  - rewrite lexState_readSeq_S.
    destruct (span_exists IsSpace rest) as (ws & post & -> & Hws & Hpost).
    rewrite (skipWS_cursor _ _ _ Hws Hpost). cbn [bind].
    destruct post as [|c post]; [rewrite current_cursor_end; discriminate|].
    rewrite current_cursor. cbn [bind].
    destruct (c =? ")")%char; [rewrite advance_cursor; discriminate|].
    rewrite length_append in Hk.
    pose proof (IHr (pre ++ ws) (String c post) ltac:(lia)) as Hr.
    destruct (lexState_read k _) as [r1| |] eqn:Hcar; cbn [bind];
      try discriminate; [|contradiction].
    apply (proj1 (lexState_read_inv k)) in Hcar.
    destruct r1 as [car ls1|ls1 err]; [|discriminate].
    destruct Hcar as (_ & used & rest1 & Hrest1 & Hused & ->).
    assert (Hlen : (String.length rest1 < String.length (String c post))%nat).
    { rewrite Hrest1, length_append. destruct used; [congruence|].
      cbn [String.length]. lia. }
    pose proof (IHs ((pre ++ ws) ++ used) rest1 ltac:(lia)) as Hs.
    destruct (lexState_readSeq k _) as [[cdr ls2|ls2 err]| |]; cbn [bind];
      try discriminate. contradiction.
Qed.

(** [read] terminates on every text. *)
Lemma read_total (s : string) : read s <> OutOfFuel.
Proof.
  rewrite read_cursor.
  pose proof (proj1 (lexState_read_total (read_fuel (String.length s))) "" s) as Ht.
  destruct (lexState_read _ _) as [[v ls|ls err]| |]; cbn [bind]; try discriminate.
  exfalso. apply Ht; [unfold read_fuel; lia|reflexivity].
Qed.

(** Every value returned by [read] is readable: it holds no function,
    its numbers are int64 and its symbols are tokens that are not
    integers. *)
Lemma read_readable (s : string) (v : val) : read s = Ret (Ok v) -> readable v.
Proof.
  rewrite read_cursor.
  destruct (lexState_read _ _) as [r| |] eqn:Hr; cbn [bind]; try discriminate.
  apply (proj1 (lexState_read_inv _)) in Hr.
  destruct r as [v' ls|ls err]; intros [= <-]. apply Hr.
Qed.

(** ** Reading back what [pr] prints *)

Lemma pr_loop_tail (sq : seq) : forall s, pr_loop s sq = s ++ pr_tail sq.
Proof.
  induction sq as [|x r IH]; intros s; cbn [pr_loop pr_tail].
  - rewrite append_nil_r. reflexivity.
  - rewrite IH. norm_append. reflexivity.
Qed.

Lemma pr_seq_val (sq : seq) : pr (seq_val sq) = "(" ++ pr_elems sq ++ ")".
Proof.
  destruct sq as [|car cdr]; [reflexivity|].
  cbn [pr pr_elems]. rewrite pr_loop_tail. norm_append. reflexivity.
Qed.

Lemma pr_tail_elems (sq : seq) :
  exists ws, string_forallb IsSpace ws = true /\ pr_tail sq = ws ++ pr_elems sq.
Proof.
  destruct sq as [|x r]; [exists ""|exists " "]; split; reflexivity.
Qed.

Lemma atom_char_inv (c : ascii) :
  atom_char c = true ->
  IsSpace c = false /\ (c =? "(")%char = false /\ (c =? ")")%char = false.
Proof.
  unfold atom_char. intros Hc.
  apply andb_true_iff in Hc as [Hc H2]. apply andb_true_iff in Hc as [H0 H1].
  apply negb_true_iff in H0, H1, H2. auto.
Qed.

Lemma is_token_inv (t : string) :
  is_token t = true ->
  exists c t', t = String c t' /\ (c =? "#")%char = false /\
               atom_char c = true /\ string_forallb atom_char t = true.
Proof.
  destruct t as [|c t']; [discriminate|]. cbn [is_token]. intros Ht.
  apply andb_true_iff in Ht as [Hh Hall]. apply negb_true_iff in Hh.
  exists c, t'. repeat split; try assumption.
  simpl in Hall. apply andb_true_iff in Hall as [Hc _]. exact Hc.
Qed.

(** The atom scan on a token followed by a delimiter. *)
Lemma lexState_read_token (k : nat) (pre t post : string) :
  is_token t = true -> delimited post = true ->
  lexState_read (S k) (cursor pre (t ++ post)) =
  Ret (match ParseInt t with
       | (_, Some _) => Parsed (symbol t) (cursor (pre ++ t) post)
       | (num, None) => Parsed (number num) (cursor (pre ++ t) post)
       end).
Proof.
  intros Ht Hpost. destruct (is_token_inv t Ht) as (c & t' & -> & Hh & Hc & Hall).
  destruct (atom_char_inv c Hc) as (Hsp & Hop & Hcl).
  rewrite lexState_read_S. simpl_append.
  rewrite skipWS_cursor_here by (rewrite Hsp; reflexivity). cbn [bind].
  rewrite isEOS_cursor, current_cursor. cbn [bind]. rewrite Hh, Hop, Hcl.
  change (String c (t' ++ post)) with (String c t' ++ post).
  rewrite (skipWhile_cursor atom_char pre (String c t') post Hall Hpost).
  cbn [bind]. rewrite getToken_cursor. cbn [bind].
  destruct (ParseInt (String c t')) as [num [err|]]; reflexivity.
Qed.

(** The print form of a readable value starts with a byte that is neither
    white space nor a closing parenthesis. *)
Lemma pr_head (v : val) :
  readable v ->
  exists c s', pr v = String c s' /\ IsSpace c = false /\ (c =? ")")%char = false.
Proof.
  assert (Htok : forall t, is_token t = true ->
            exists c s', t = String c s' /\ IsSpace c = false /\ (c =? ")")%char = false).
  { intros t Ht. destruct (is_token_inv t Ht) as (c & t' & -> & _ & Hc & _).
    destruct (atom_char_inv c Hc) as (Hsp & _ & Hcl). eauto. }
  destruct v as [name|i|b|name f|sq]; cbn [readable]; intros Hv.
  - apply Htok, Hv.
  - apply Htok, ParseInt_fmt_int64, Hv.
  - destruct b; eexists _, _; repeat split.
  - contradiction.
  - rewrite pr_seq_val. simpl_append. eexists _, _; repeat split.
Qed.

Lemma delimited_tail (sq : seq) (post : string) :
  delimited (pr_tail sq ++ ")" ++ post) = true.
Proof. destruct sq as [|x r]; reflexivity. Qed.

Lemma read_back :
  (forall v, readable v ->
     forall k pre post, (need v <= k)%nat -> delimited post = true ->
       lexState_read k (cursor pre (pr v ++ post))
       = Ret (Parsed v (cursor (pre ++ pr v) post))) /\
  (forall sq, readable_seq sq ->
     forall k pre ws post, (need_seq sq <= k)%nat ->
       string_forallb IsSpace ws = true ->
       lexState_readSeq k (cursor pre (ws ++ pr_elems sq ++ ")" ++ post))
       = Ret (Parsed sq (cursor (pre ++ ws ++ pr_elems sq ++ ")") post))).
Proof.
  apply val_seq_mutind.
  - (* symbol *)
    intros name [Htok Hnum] k pre post Hk Hpost.
    destruct k as [|k]; [simpl in Hk; lia|].
    cbn [pr]. rewrite (lexState_read_token k pre name post Htok Hpost).
    destruct (ParseInt name) as [num [err|]]; [reflexivity|].
    exfalso. apply Hnum. reflexivity.
  - (* number *)
    intros i Hi k pre post Hk Hpost.
    destruct k as [|k]; [simpl in Hk; lia|].
    destruct (ParseInt_fmt_int64 i Hi) as [HP Htok].
    cbn [pr]. rewrite (lexState_read_token k pre _ post Htok Hpost), HP.
    reflexivity.
  - (* boolean *)
    intros b _ k pre post Hk Hpost.
    destruct k as [|k]; [simpl in Hk; lia|].
    pose proof (lexState_read_hash k pre "" (String (if b then "t" else "f")%char post)
                  eq_refl) as Hr.
    simpl_append. destruct b; cbn [pr]; simpl_append; rewrite Hr; cbv zeta.
    all: rewrite ?Ascii.eqb_refl; change ("f" =? "t")%char with false; cbv iota.
    all: (match goal with |- Ret (Parsed _ (cursor ?a _)) = Ret (Parsed _ (cursor ?b _)) =>
         replace a with b; [reflexivity|norm_append; reflexivity] end).
  - (* builtin *)
    intros name f [].
  - (* a sequence as a value *)
    intros sq IH Hsq k pre post Hk Hpost.
    destruct k as [|k]; [simpl in Hk; lia|]. cbn [need] in Hk.
    rewrite pr_seq_val. norm_append.
    rewrite lexState_read_S, skipWS_cursor_here by reflexivity. cbn [bind].
    rewrite isEOS_cursor, current_cursor. cbn [bind].
    change ("(" =? "#")%char with false. change ("(" =? "(")%char with true.
    cbv iota. rewrite advance_cursor. cbn [bind].
    pose proof (IH Hsq k (pre ++ "(") "" post ltac:(lia) eq_refl) as Hs.
    simpl_append. rewrite Hs. cbn [bind].
    replace ((pre ++ "(") ++ pr_elems sq ++ String ")" "")
      with (pre ++ String "(" (pr_elems sq ++ String ")" ""))
      by (norm_append; reflexivity).
    reflexivity.
  - (* empty *)
    intros _ k pre ws post Hk Hws.
    destruct k as [|k]; [simpl in Hk; lia|].
    cbn [pr_elems]. simpl_append.
    rewrite lexState_readSeq_S, (skipWS_cursor pre ws (String ")" post) Hws eq_refl).
    cbn [bind]. rewrite current_cursor. cbn [bind]. change (")" =? ")")%char with true.
    cbv iota. rewrite advance_cursor. cbn [bind].
    rewrite append_assoc. reflexivity.
  - (* cons *)
    intros x IHx r IHr [Hx Hr] k pre ws post Hk Hws.
    destruct k as [|k]; [simpl in Hk; lia|]. cbn [need_seq] in Hk.
    destruct (pr_head x Hx) as (c & s' & Hpr & Hsp & Hcl).
    cbn [pr_elems]. rewrite lexState_readSeq_S.
    assert (Hskip : skipWS (cursor pre (ws ++ (pr x ++ pr_tail r) ++ ")" ++ post))
                    = Ret (cursor (pre ++ ws) (pr x ++ pr_tail r ++ ")" ++ post))).
    { rewrite (append_assoc (pr x)). apply skipWS_cursor; [exact Hws|].
      rewrite Hpr. simpl_append. rewrite Hsp. reflexivity. }
    rewrite Hskip. cbn [bind].
    assert (Hcur : current (cursor (pre ++ ws) (pr x ++ pr_tail r ++ ")" ++ post))
                   = Ret c).
    { rewrite Hpr. simpl_append. apply current_cursor. }
    rewrite Hcur. cbn [bind]. rewrite Hcl.
    rewrite (IHx Hx k (pre ++ ws) (pr_tail r ++ ")" ++ post) ltac:(lia)
               (delimited_tail r post)).
    cbn [bind].
    destruct (pr_tail_elems r) as (ws' & Hws' & Htail).
    rewrite Htail, (append_assoc ws').
    rewrite (IHr Hr k ((pre ++ ws) ++ pr x) ws' post ltac:(lia) Hws').
    cbn [bind].
    match goal with |- Ret (Parsed _ (cursor ?a _)) = Ret (Parsed _ (cursor ?b _)) =>
      replace a with b; [reflexivity|norm_append; reflexivity] end.
Qed.

Lemma need_bound :
  (forall v, (need v <= 2 * String.length (pr v) + 1)%nat) /\
  (forall sq, (need_seq sq <= 2 * String.length (pr_tail sq) + 1)%nat).
Proof.
  apply val_seq_mutind; try (intros; cbn [need]; lia).
  - intros sq IH. cbn [need]. rewrite pr_seq_val.
    destruct (pr_tail_elems sq) as (ws & _ & Htail).
    assert (Hws : (String.length (pr_tail sq) <= 1 + String.length (pr_elems sq))%nat).
    { destruct sq; cbn [pr_tail pr_elems]; simpl_append; cbn [String.length]; lia. }
    simpl_append. cbn [String.length]. rewrite length_append.
    cbn [String.length]. lia.
  - cbn [need_seq pr_tail]. simpl. lia.
  - intros x IHx r IHr. cbn [need_seq pr_tail]. simpl_append.
    cbn [String.length]. rewrite length_append. lia.
Qed.

Lemma equal_refl_readable :
  (forall v, readable v -> equal v v = Ret true) /\
  (forall sq, readable_seq sq -> equal_seq sq (seq_val sq) = Ret true).
Proof.
  apply val_seq_mutind; cbn [readable readable_seq equal equal_seq].
  - intros name _. rewrite String.eqb_refl. reflexivity.
  - intros i _. rewrite Z.eqb_refl. reflexivity.
  - intros b _. rewrite Bool.eqb_reflx. reflexivity.
  - intros name f [].
  - intros sq IH Hsq. apply IH, Hsq.
  - reflexivity.
  - intros x IHx r IHr [Hx Hr]. rewrite (IHx Hx). cbn [bind]. apply IHr, Hr.
Qed.

Lemma readable_not_function (v : val) : readable v -> variantOf v <> Function.
Proof. destruct v; cbn [readable variantOf]; intros Hv; try discriminate. contradiction. Qed.

(** C8: a value returned by [read] is not a function, and reading its
    print form succeeds and returns a value equal to it (the same value;
    [equal] holds with either one as the receiver). *)
Theorem read_print_roundtrip (s : string) (v : val) :
  read s = Ret (Ok v) ->
  variantOf v <> Function /\
  exists v', read (pr v) = Ret (Ok v') /\
             equal v' v = Ret true /\ equal v v' = Ret true /\ v' = v.
Proof.
  intros Hread. pose proof (read_readable s v Hread) as Hv.
  split; [apply readable_not_function, Hv|].
  exists v. split.
  - rewrite read_cursor.
    pose proof (proj1 read_back v Hv (read_fuel (String.length (pr v))) "" "") as Hb.
    rewrite append_nil_r in Hb. rewrite Hb; [reflexivity| |reflexivity].
    pose proof (proj1 need_bound v). unfold read_fuel. lia.
  - pose proof (proj1 equal_refl_readable v Hv). auto.
Qed.

Lemma read_print_roundtrip_witness :
  exists v', read "(+ -12 x1 (#t ()) 0)" = Ret (Ok v') /\
    equal v' (seq_val (cons (symbol "+") (cons (number (-12)) (cons (symbol "x1")
               (cons (seq_val (cons (boolean true) (cons (seq_val empty) empty)))
                  (cons (number 0) empty)))))) = Ret true.
Proof.
  destruct (read_print_roundtrip "  (+ -012 x1(#t()  )+0 ) rest"
              (seq_val (cons (symbol "+") (cons (number (-12)) (cons (symbol "x1")
                 (cons (seq_val (cons (boolean true) (cons (seq_val empty) empty)))
                    (cons (number 0) empty))))))
              ltac:(vm_compute; reflexivity))
    as (_ & v' & Hr & He & _).
  exists v'. split; [exact Hr|exact He].
Defined.

(** * Further properties *)

(** ** The reader: errors, panics and termination *)

(** X1: a text that is empty or all white space has no form: [read]
    returns the error "EOS". *)
Theorem read_blank (ws : string) :
  string_forallb IsSpace ws = true -> read ws = Ret (Err (errors_New "EOS")).
Proof.
  intros Hws. rewrite read_cursor, read_fuel_S, lexState_read_S.
  pose proof (skipWS_cursor "" ws "" Hws eq_refl) as Hs.
  rewrite append_nil_r in Hs. rewrite Hs. cbn [bind].
  rewrite isEOS_cursor. reflexivity.
Qed.

Lemma read_blank_witness :
  read "" = Ret (Err (errors_New "EOS")) /\
  read ("  " ++ newline) = Ret (Err (errors_New "EOS")).
Proof. split; [apply (read_blank "")|apply (read_blank ("  " ++ newline))]; reflexivity. Defined.

(** X2: a text whose first byte after white space is a closing
    parenthesis is refused with the error "unexpected `)`", whatever
    follows. *)
Theorem read_close_paren (ws rest : string) :
  string_forallb IsSpace ws = true ->
  read (ws ++ String ")" rest) = Ret (Err (errors_New "unexpected `)`")).
Proof.
  intros Hws. rewrite read_cursor, read_fuel_S, lexState_read_S.
  rewrite (skipWS_cursor "" ws (String ")" rest) Hws eq_refl). cbn [bind].
  rewrite isEOS_cursor, current_cursor. reflexivity.
Qed.

Lemma read_close_paren_witness :
  read " ) (1 2)" = Ret (Err (errors_New "unexpected `)`")).
Proof. apply (read_close_paren " " " (1 2)"). reflexivity. Defined.

Lemma lexState_reader_outcome (k : nat) :
  (forall pre rest, reader_outcome (lexState_read k (cursor pre rest))) /\
  (forall pre rest, reader_outcome (lexState_readSeq k (cursor pre rest))).
Proof.
  induction k as [|k [IHr IHs]]; [split; intros; exact I|].
  split; intros pre rest.
  - rewrite lexState_read_S.
    destruct (span_exists IsSpace rest) as (ws & post & -> & Hws & Hpost).
    rewrite (skipWS_cursor _ _ _ Hws Hpost). cbn [bind].
    rewrite isEOS_cursor. destruct post as [|c post]; [left; reflexivity|].
    rewrite current_cursor. cbn [bind].
    destruct (c =? "#")%char.
    { rewrite advance_cursor. cbn [bind]. rewrite isEOS_cursor.
      destruct post as [|c2 post]; [left; reflexivity|].
      rewrite current_cursor, advance_cursor. cbn [bind].
      destruct (c2 =? "t")%char; [|destruct (c2 =? "f")%char]; try exact I.
      right; left; reflexivity. }
    destruct (c =? "(")%char.
    { rewrite advance_cursor. cbn [bind].
      pose proof (IHs ((pre ++ ws) ++ String c "") post) as Hs.
      destruct (lexState_readSeq k _) as [[sq ls|ls err]| |]; exact Hs. }
    destruct (c =? ")")%char; [right; right; reflexivity|].
    destruct (span_exists atom_char (String c post))
      as (mid & post2 & Heq & Hmid & Hpost2).
    rewrite Heq, (skipWhile_cursor atom_char (pre ++ ws) mid post2 Hmid Hpost2).
    cbn [bind]. rewrite getToken_cursor. cbn [bind].
    destruct (ParseInt mid) as [num [err|]]; exact I.
  - rewrite lexState_readSeq_S.
    destruct (span_exists IsSpace rest) as (ws & post & -> & Hws & Hpost).
    rewrite (skipWS_cursor _ _ _ Hws Hpost). cbn [bind].
    destruct post as [|c post]; [rewrite current_cursor_end; reflexivity|].
    rewrite current_cursor. cbn [bind].
    destruct (c =? ")")%char; [rewrite advance_cursor; exact I|].
    pose proof (IHr (pre ++ ws) (String c post)) as Hr.
    destruct (lexState_read k _) as [r1| |] eqn:Hcar; cbn [bind]; try exact Hr.
    pose proof (proj1 (lexState_read_inv k) _ _ _ Hcar) as Hinv.
    destruct r1 as [car ls1|ls1 err]; [|exact Hr].
    destruct Hinv as (_ & used & rest1 & _ & _ & ->).
    pose proof (IHs ((pre ++ ws) ++ used) rest1) as Hs.
    destruct (lexState_readSeq k _) as [[cdr ls2|ls2 err]| |]; exact Hs.
Qed.

(** X3: on every text [read] terminates, and in one of three ways: with
    a value; with one of the errors "EOS", "No boolean", "unexpected `)`";
    or with the panic "Advancing beyond EOS".  No other panic is possible:
    never the one of [getToken], never an index or a slice out of range. *)
Theorem read_outcomes (s : string) :
  (exists v, read s = Ret (Ok v)) \/
  (exists err, read s = Ret (Err err) /\ read_error err) \/
  read s = Panic "Advancing beyond EOS".
Proof.
  pose proof (read_total s) as Htot. rewrite read_cursor in *.
  pose proof (proj1 (lexState_reader_outcome (read_fuel (String.length s))) "" s) as Ho.
  destruct (lexState_read _ _) as [[v ls|ls err]|msg|]; cbn [bind] in *.
  - left. eauto.
  - right. left. eauto.
  - right. right. simpl in Ho. rewrite Ho. reflexivity.
  - contradiction.
Qed.

(** ** The reader: atoms, white space and what follows the first form *)

Lemma lexState_read_skip (k : nat) (pre ws rest : string) :
  string_forallb IsSpace ws = true ->
  match rest with EmptyString => true | String c _ => negb (IsSpace c) end = true ->
  lexState_read (S k) (cursor pre (ws ++ rest))
  = lexState_read (S k) (cursor (pre ++ ws) rest).
Proof.
  intros Hws Hrest. rewrite !lexState_read_S.
  rewrite (skipWS_cursor pre ws rest Hws Hrest).
  rewrite (skipWS_cursor_here (pre ++ ws) rest Hrest). reflexivity.
Qed.

(** X4: a token after white space, followed by the end of the text, by
    white space or by a parenthesis, is read whole, as a number when
    [ParseInt] accepts it and as a symbol of that name otherwise. *)
Theorem read_token (ws t post : string) :
  string_forallb IsSpace ws = true -> is_token t = true -> delimited post = true ->
  read (ws ++ t ++ post)
  = Ret (Ok (match ParseInt t with
             | (num, None) => number num
             | (_, Some _) => symbol t
             end)).
Proof.
  intros Hws Ht Hpost. rewrite read_cursor, read_fuel_S.
  destruct (is_token_inv t Ht) as (c & t' & Heq & _ & Hc & _).
  destruct (atom_char_inv c Hc) as (Hsp & _ & _).
  rewrite lexState_read_skip; [|exact Hws|subst t; simpl_append; rewrite Hsp; reflexivity].
  rewrite (lexState_read_token _ _ t post Ht Hpost). cbn [bind].
  destruct (ParseInt t) as [num [err|]]; reflexivity.
Qed.

Lemma read_token_witness :
  read " +42)" = Ret (Ok (number 42)) /\
  read "4x2 y" = Ret (Ok (symbol "4x2")) /\
  read "99999999999999999999" = Ret (Ok (symbol "99999999999999999999")).
Proof.
  split; [|split].
  - apply (read_token " " "+42" ")"); reflexivity.
  - apply (read_token "" "4x2" " y"); reflexivity.
  - apply (read_token "" "99999999999999999999" ""); reflexivity.
Defined.

Lemma lexState_read_pr (v : val) (ws post : string) :
  readable v -> string_forallb IsSpace ws = true -> delimited post = true ->
  read (ws ++ pr v ++ post) = Ret (Ok v).
Proof.
  intros Hv Hws Hpost. rewrite read_cursor, read_fuel_S.
  destruct (pr_head v Hv) as (c & s' & Hpr & Hsp & _).
  rewrite lexState_read_skip;
    [|exact Hws|rewrite Hpr; simpl_append; rewrite Hsp; reflexivity].
  rewrite (proj1 read_back v Hv _ ("" ++ ws) post); [reflexivity| |exact Hpost].
  pose proof (proj1 need_bound v). rewrite !length_append. lia.
Qed.

(** X5: [read] skips the white space before the first form and drops
    what follows it: the print form of a readable value, after any white
    space and before any text that starts with white space or a
    parenthesis (or is empty), reads as that value. *)
Theorem read_first_form (s : string) (v : val) (ws post : string) :
  read s = Ret (Ok v) ->
  string_forallb IsSpace ws = true -> delimited post = true ->
  read (ws ++ pr v ++ post) = Ret (Ok v).
Proof.
  intros Hread. apply lexState_read_pr. apply (read_readable s v Hread).
Qed.

Lemma read_first_form_witness :
  read ("  " ++ "(a (1 #t) -7)" ++ " (more) text") 
  = Ret (Ok (seq_val (cons (symbol "a")
       (cons (seq_val (cons (number 1) (cons (boolean true) empty)))
          (cons (number (-7)) empty))))).
Proof.
  apply (read_first_form "(a(1 #t)-7)"
           (seq_val (cons (symbol "a")
              (cons (seq_val (cons (number 1) (cons (boolean true) empty)))
                 (cons (number (-7)) empty))))
           "  " " (more) text"); vm_compute; reflexivity.
Defined.

(** X6: the values [read] returns are exactly the readable ones: those
    that hold no function, whose numbers are in the int64 range and whose
    symbols are tokens that [ParseInt] refuses. *)
Theorem read_image (v : val) :
  (exists s, read s = Ret (Ok v)) <-> readable v.
Proof.
  split.
  - intros [s Hs]. apply (read_readable s v Hs).
  - intros Hv. exists (pr v).
    pose proof (lexState_read_pr v "" "" Hv eq_refl eq_refl) as Hr.
    simpl_append. rewrite append_nil_r in Hr. exact Hr.
Qed.

(** X7: two values returned by [read] that print alike are the same
    value. *)
Theorem pr_injective (s1 s2 : string) (v w : val) :
  read s1 = Ret (Ok v) -> read s2 = Ret (Ok w) -> pr v = pr w -> v = w.
Proof.
  intros Hv Hw Hpr.
  apply read_readable in Hv, Hw.
  pose proof (lexState_read_pr v "" "" Hv eq_refl eq_refl) as Rv.
  pose proof (lexState_read_pr w "" "" Hw eq_refl eq_refl) as Rw.
  rewrite Hpr, Rw in Rv. congruence.
Qed.

Lemma pr_injective_witness :
  seq_val (cons (number 7) empty) = seq_val (cons (number 7) empty).
Proof.
  apply (pr_injective "( +7 )" "(007)"); vm_compute; reflexivity.
Defined.

(** ** Printing *)

Lemma pr_elems_concat (sq : seq) :
  pr_elems sq = String.concat " " (map pr (seq_to_list sq)).
Proof.
  destruct sq as [|x r]; [reflexivity|]. cbn [pr_elems seq_to_list map].
  revert x. induction r as [|y r IH]; intros x.
  - cbn [pr_tail seq_to_list map String.concat]. apply append_nil_r.
  - cbn [pr_tail seq_to_list map]. specialize (IH y).
    cbn [seq_to_list map] in IH. rewrite IH.
    cbn [String.concat]. reflexivity.
Qed.

(** X8: the print form of a sequence is the print forms of its elements,
    in order, separated by one space, between parentheses; the empty
    sequence prints as "()".  (Whatever the elements are, functions
    included.) *)
Theorem pr_sequence (sq : seq) :
  pr (seq_val sq) = "(" ++ String.concat " " (map pr (seq_to_list sq)) ++ ")".
Proof. rewrite pr_seq_val, pr_elems_concat. reflexivity. Qed.

(** ** The cursor *)

Lemma substring_0_length (a b : string) : substring 0 (String.length a) (a ++ b) = a.
Proof. apply (substring_append "" a b). Qed.

Lemma substring_none (n : nat) : forall s, substring n 0 s = "".
Proof.
  induction n as [|n IH]; intros s; destruct s; simpl; try reflexivity. apply IH.
Qed.

Lemma lexState_as_cursor (ls : lexState) :
  (ls_pos ls <= String.length (ls_s ls))%nat ->
  exists pre rest, ls = cursor pre rest.
Proof.
  destruct ls as [s pos]. cbn [ls_s ls_pos]. revert pos.
  induction s as [|c s IH]; intros pos Hpos.
  - exists "", "". simpl in Hpos. replace pos with 0%nat by lia. reflexivity.
  - destruct pos as [|pos].
    + exists "", (String c s). reflexivity.
    + simpl in Hpos. destruct (IH pos ltac:(lia)) as (pre & rest & Heq).
      exists (String c pre), rest. unfold cursor in *. simpl_append.
      injection Heq as -> ->. reflexivity.
Qed.

Lemma cursor_bounds (pre rest : string) :
  ls_s (cursor pre rest) = pre ++ rest /\
  ls_pos (cursor pre rest) = String.length pre.
Proof. split; reflexivity. Qed.

(** X9: [skipWhile] never panics and never touches the text.  It
    returns the cursor moved forward (never past the end of the text when
    it started inside it) over bytes that all satisfy the predicate, and
    stops at the end of the text or at a byte that does not satisfy it. *)
Theorem skipWhile_spec (pred : ascii -> bool) (ls : lexState) :
  exists ls',
    skipWhile pred ls = Ret ls' /\
    ls_s ls' = ls_s ls /\
    (ls_pos ls <= ls_pos ls')%nat /\
    ((ls_pos ls <= String.length (ls_s ls))%nat ->
     (ls_pos ls' <= String.length (ls_s ls))%nat) /\
    string_forallb pred
      (substring (ls_pos ls) (ls_pos ls' - ls_pos ls) (ls_s ls)) = true /\
    (isEOS ls' = true \/ exists c, current ls' = Ret c /\ pred c = false).
Proof.
  destruct (Nat.le_gt_cases (ls_pos ls) (String.length (ls_s ls))) as [Hin|Hout].
  - destruct (lexState_as_cursor ls Hin) as (pre & rest & ->).
    destruct (span_exists pred rest) as (mid & post & -> & Hmid & Hpost).
    exists (cursor (pre ++ mid) post).
    rewrite (skipWhile_cursor pred pre mid post Hmid Hpost).
    assert (Hstop : isEOS (cursor (pre ++ mid) post) = true \/
                    exists c, current (cursor (pre ++ mid) post) = Ret c /\ pred c = false).
    { rewrite isEOS_cursor. destruct post as [|c post]; [left; reflexivity|].
      right. exists c. rewrite current_cursor.
      apply negb_true_iff in Hpost. auto. }
    split; [reflexivity|]. split; [|split; [|split; [|split; [|exact Hstop]]]];
      unfold cursor; cbn [ls_s ls_pos]; rewrite ?length_append; try lia.
    + rewrite append_assoc. reflexivity.
    + replace (String.length pre + String.length mid - String.length pre)%nat
        with (String.length mid) by lia.
      rewrite substring_append. exact Hmid.
  - exists ls. unfold skipWhile.
    replace (String.length (ls_s ls) - ls_pos ls)%nat with 0%nat by lia.
    rewrite Nat.sub_diag.
    repeat split; try lia.
    + rewrite substring_none. reflexivity.
    + left. unfold isEOS. apply Nat.leb_le. lia.
Qed.

(** X10: a successful [read] or [readSeq] returns a cursor on the same
    text, strictly further than the one it started from and not past the
    end of the text. *)
Theorem lexState_read_advances (k : nat) (ls ls' : lexState) :
  (forall v, lexState_read k ls = Ret (Parsed v ls') ->
     ls_s ls' = ls_s ls /\
     (ls_pos ls < ls_pos ls' <= String.length (ls_s ls))%nat) /\
  (forall sq, lexState_readSeq k ls = Ret (Parsed sq ls') ->
     ls_s ls' = ls_s ls /\
     (ls_pos ls < ls_pos ls' <= String.length (ls_s ls))%nat).
Proof.
  assert (Hcur : forall A (good : A -> Prop) pre rest (a : A),
    parsed_ok good pre rest (Parsed a ls') ->
    ls_s ls' = ls_s (cursor pre rest) /\
    (ls_pos (cursor pre rest) < ls_pos ls'
     <= String.length (ls_s (cursor pre rest)))%nat).
  { intros A good pre rest a (_ & used & rest' & -> & Hused & ->).
    unfold cursor. cbn [ls_s ls_pos]. rewrite !length_append.
    split; [rewrite append_assoc; reflexivity|].
    destruct used; [congruence|]. cbn [String.length]. lia. }
  destruct (Nat.le_gt_cases (ls_pos ls) (String.length (ls_s ls))) as [Hin|Hout].
  - destruct (lexState_as_cursor ls Hin) as (pre & rest & ->).
    split; intros a Ha.
    + apply (Hcur _ readable pre rest a).
      apply (proj1 (lexState_read_inv k) _ _ _ Ha).
    + apply (Hcur _ readable_seq pre rest a).
      apply (proj2 (lexState_read_inv k) _ _ _ Ha).
  - assert (Hskip : skipWS ls = Ret ls).
    { unfold skipWS, skipWhile.
      replace (String.length (ls_s ls) - ls_pos ls)%nat with 0%nat by lia.
      reflexivity. }
    assert (Heos : isEOS ls = true) by (apply Nat.leb_le; lia).
    split; intros a; (destruct k as [|k]; [discriminate|]).
    + rewrite lexState_read_S, Hskip. cbn [bind]. rewrite Heos. discriminate.
    + rewrite lexState_readSeq_S, Hskip. cbn [bind].
      unfold current. rewrite Heos. discriminate.
Qed.

Lemma lexState_read_advances_witness :
  ls_s {| ls_s := "x (12 y) z"; ls_pos := 8 |} = "x (12 y) z" /\
  (1 < 8 <= String.length "x (12 y) z")%nat.
Proof.
  apply (proj1 (lexState_read_advances 5 {| ls_s := "x (12 y) z"; ls_pos := 1 |}
                  {| ls_s := "x (12 y) z"; ls_pos := 8 |})
           (seq_val (cons (number 12) (cons (symbol "y") empty)))).
  vm_compute. reflexivity.
Defined.

(** ** Structural equality *)

Lemma equal_true_iff :
  (forall v, function_free v -> forall w, equal v w = Ret true <-> v = w) /\
  (forall sq, function_free_seq sq ->
     forall w, equal_seq sq w = Ret true <-> seq_val sq = w).
Proof.
  apply val_seq_mutind; cbn [function_free function_free_seq equal equal_seq].
  - intros name _ w. destruct w as [name'| | | |]; try (split; discriminate).
    split.
    + intros [= Heq]. apply String.eqb_eq in Heq. congruence.
    + intros [= ->]. rewrite String.eqb_refl. reflexivity.
  - intros i _ w. destruct w as [|i'| | |]; try (split; discriminate).
    split.
    + intros [= Heq]. apply Z.eqb_eq in Heq. congruence.
    + intros [= ->]. rewrite Z.eqb_refl. reflexivity.
  - intros b _ w. destruct w as [| |b'| |]; try (split; discriminate).
    split.
    + intros [= Heq]. apply Bool.eqb_prop in Heq. congruence.
    + intros [= ->]. rewrite Bool.eqb_reflx. reflexivity.
  - intros name f [].
  - intros sq IH Hsq w. apply IH, Hsq.
  - intros _ w. destruct w as [| | | |[|a s]]; split; try discriminate; reflexivity.
  - intros x IHx r IHr [Hx Hr] w.
    destruct w as [| | | |[|a s]]; try (split; discriminate).
    destruct (proj1 equal_function_free x Hx a) as [b Hb].
    rewrite Hb. cbn [bind]. destruct b.
    + apply IHx in Hb; [|exact Hx]. subst a. rewrite (IHr Hr (seq_val s)).
      split; [intros [= ->]; reflexivity|intros [= ->]; reflexivity].
    + split; [discriminate|]. intros [= <- <-].
      assert (Hxx : equal x x = Ret true) by (apply IHx; [exact Hx|reflexivity]).
      congruence.
Qed.

(** X11: on a receiver that holds no function, [equal] decides identity
    of the two trees: it returns a boolean, which is true exactly when the
    other operand is the same value; and between two values without
    functions the result does not depend on which one is the receiver. *)
Theorem equal_decides (v w : val) :
  function_free v ->
  (exists b, equal v w = Ret b /\ (b = true <-> v = w)) /\
  (function_free w -> equal v w = equal w v).
Proof.
  intros Hv.
  destruct (proj1 equal_function_free v Hv w) as [b Hb].
  pose proof (proj1 equal_true_iff v Hv w) as Hiff.
  split.
  - exists b. split; [exact Hb|]. rewrite <- Hiff, Hb.
    split; [intros ->; reflexivity|intros [= ->]; reflexivity].
  - intros Hw. destruct (proj1 equal_function_free w Hw v) as [b' Hb'].
    pose proof (proj1 equal_true_iff w Hw v) as Hiff'.
    rewrite Hb, Hb' in *.
    destruct b, b'; try reflexivity.
    + assert (Hvw : v = w) by (apply Hiff; reflexivity).
      assert (Hwv : Ret false = Ret true :> outcome bool)
        by (apply Hiff'; congruence). discriminate.
    + assert (Hwv : w = v) by (apply Hiff'; reflexivity).
      assert (Hvw : Ret false = Ret true :> outcome bool)
        by (apply Hiff; congruence). discriminate.
Qed.

Lemma equal_decides_witness :
  (exists b, equal (seq_val (cons (number 1) (cons (symbol "a") empty)))
                   (seq_val (cons (number 1) (cons (symbol "b") empty))) = Ret b /\
             (b = true <->
              seq_val (cons (number 1) (cons (symbol "a") empty))
              = seq_val (cons (number 1) (cons (symbol "b") empty)))) /\
  equal (number 1) (seq_val empty) = equal (seq_val empty) (number 1).
Proof.
  split.
  - apply (equal_decides (seq_val (cons (number 1) (cons (symbol "a") empty)))
             (seq_val (cons (number 1) (cons (symbol "b") empty)))).
    simpl. auto.
  - apply (equal_decides (number 1) (seq_val empty)); simpl; auto.
Defined.




(** ** Operand extraction *)


(** ** Function application *)

Section ApplicationFacts.
Context {E : Type} `{env E}.

Lemma eval_app_form (e : E) (head : val) (tl : seq) :
  special_head head = false ->
  eval e (seq_val (cons head tl)) = evalApplication eval e head tl.
Proof.
  intros Hh. rewrite eval_unfold. cbn [eval_body first rest bind].
  destruct head as [hname| | | |]; try reflexivity.
  cbn [special_head] in Hh. apply orb_false_iff in Hh as [-> ->]. reflexivity.
Qed.

Lemma evalArgs_values (e : E) (args : seq) :
  forall vs acc,
    Forall2 (fun x y => eval e x = Ret y) (seq_to_list args) vs ->
    evalArgs eval e args acc = Ret (acc ++ vs)%list.
Proof.
  induction args as [|x r IH]; intros vs acc Hvs; cbn [seq_to_list] in Hvs.
  - inversion Hvs; subst. cbn [evalArgs]. rewrite app_nil_r. reflexivity.
  - inversion Hvs as [|? y ? vs' Hx Hr]; subst. cbn [evalArgs].
    rewrite Hx. cbn [bind]. rewrite (IH vs' _ Hr), <- app_assoc. reflexivity.
Qed.

Lemma evalArgs_first_panic (e : E) (xs : list val) :
  forall vs x ys msg acc,
    Forall2 (fun x y => eval e x = Ret y) xs vs ->
    eval e x = Panic msg ->
    evalArgs eval e (seq_of_list (xs ++ x :: ys)) acc = Panic msg.
Proof.
  induction xs as [|x0 xs IH]; intros vs x ys msg acc Hvs Hx.
  - cbn [app seq_of_list evalArgs]. rewrite Hx. reflexivity.
  - inversion Hvs as [|? y ? vs' Hx0 Hr]; subst.
    cbn [app seq_of_list evalArgs]. rewrite Hx0. cbn [bind].
    apply (IH vs' x ys msg _ Hr Hx).
Qed.

Lemma eval_application_values (e : E) (head : val) (args : seq)
    (name : string) (f : native) (vs : list val) :
  special_head head = false ->
  eval e head = Ret (builtin name f) ->
  Forall2 (fun x y => eval e x = Ret y) (seq_to_list args) vs ->
  eval e (seq_val (cons head args)) = call f vs.
Proof.
  intros Hh Hf Hvs. rewrite (eval_app_form e head args Hh).
  unfold evalApplication. rewrite Hf. cbn [bind].
  rewrite (evalArgs_values e args vs [] Hvs). reflexivity.
Qed.

(** X14: a list form whose first element is not one of the special names
    is a call: when the first element evaluates to a function and the
    other elements evaluate to values, the form is worth the function
    called on those values, in the order of the elements. *)
Theorem eval_application (e : E) (head : val) (args : seq)
    (name : string) (f : native) (vs : list val) :
  special_head head = false ->
  eval e head = Ret (builtin name f) ->
  Forall2 (fun x y => eval e x = Ret y) (seq_to_list args) vs ->
  eval e (seq_val (cons head args)) = call f vs.
Proof. apply eval_application_values. Qed.

(** X15: the order of a call.  The first element is evaluated first: its
    panic is the panic of the form; if it is worth a value that is not a
    function the form panics with "cannot apply non-function" and that
    value, without evaluating any other element; otherwise the other
    elements are evaluated from left to right and the first panic among
    them is the panic of the form, whatever comes after. *)
Theorem eval_application_order (e : E) (head : val) :
  special_head head = false ->
  (forall args msg, eval e head = Panic msg ->
     eval e (seq_val (cons head args)) = Panic msg) /\
  (forall args vf, eval e head = Ret vf -> variantOf vf <> Function ->
     eval e (seq_val (cons head args))
     = Panic ("cannot apply non-function " ++ pr vf)) /\
  (forall name f xs vs x ys msg,
     eval e head = Ret (builtin name f) ->
     Forall2 (fun x y => eval e x = Ret y) xs vs ->
     eval e x = Panic msg ->
     eval e (seq_val (cons head (seq_of_list (xs ++ x :: ys)))) = Panic msg).
Proof.
  intros Hh. split; [|split].
  - intros args msg Hp. rewrite (eval_app_form e head args Hh).
    unfold evalApplication. rewrite Hp. reflexivity.
  - intros args vf Hv Hnf. rewrite (eval_app_form e head args Hh).
    unfold evalApplication. rewrite Hv. cbn [bind].
    destruct vf; try reflexivity. exfalso. apply Hnf. reflexivity.
  - intros name f xs vs x ys msg Hf Hvs Hx.
    rewrite (eval_app_form e head _ Hh).
    unfold evalApplication. rewrite Hf. cbn [bind].
    rewrite (evalArgs_first_panic e xs vs x ys msg [] Hvs Hx). reflexivity.
Qed.

Lemma call_numbers (f : native) (ns : list Z) :
  call f (map number ns)
  = Ret (number (wrap_int64 (match f with
                             | native_builtinPlus => Zsum ns
                             | native_builtinMul => Zprod ns
                             end))).
Proof.
  destruct f; cbn [call].
  - unfold builtinPlus. rewrite builtinPlus_loop_numbers.
    change 0 with (wrap_int64 0) at 1. rewrite fold_add_wrap. reflexivity.
  - unfold builtinMul. rewrite builtinMul_loop_numbers.
    change 1 with (wrap_int64 1) at 1. rewrite fold_mul_wrap, Z.mul_1_l.
    reflexivity.
Qed.

(** X16: arithmetic composes: a call of a function that is [builtinPlus]
    (that is [builtinMul]) on forms that evaluate to numbers is worth the
    sum (the product) of these numbers, reduced to int64; the forms may
    themselves be calls. *)
Theorem eval_arithmetic (e : E) (head : val) (args : seq)
    (name : string) (f : native) (ns : list Z) :
  special_head head = false ->
  eval e head = Ret (builtin name f) ->
  Forall2 (fun x n => eval e x = Ret (number n)) (seq_to_list args) ns ->
  eval e (seq_val (cons head args))
  = Ret (number (wrap_int64 (match f with
                             | native_builtinPlus => Zsum ns
                             | native_builtinMul => Zprod ns
                             end))).
Proof.
  intros Hh Hf Hns.
  rewrite (eval_application_values e head args name f (map number ns) Hh Hf).
  - apply call_numbers.
  - clear -Hns. remember (seq_to_list args) as l eqn:Hl. clear Hl.
    induction Hns; cbn [map]; constructor; assumption.
Qed.

End ApplicationFacts.

Lemma eval_application_witness :
  eval testEnv (seq_val (cons (symbol "+")
     (cons (symbol "one") (cons (number 2) empty))))
  = call native_builtinPlus [number 1; number 2].
Proof.
  apply (eval_application testEnv (symbol "+")
           (cons (symbol "one") (cons (number 2) empty)) "+").
  - reflexivity.
  - reflexivity.
  - repeat constructor.
Defined.

Lemma eval_application_order_witness :
  eval testEnv (seq_val (cons (symbol "nope") (cons (seq_val empty) empty)))
    = Panic "unbound nope" /\
  eval testEnv (seq_val (cons (symbol "one") (cons (seq_val empty) empty)))
    = Panic "cannot apply non-function 1" /\
  eval testEnv (seq_val (cons (symbol "+")
     (seq_of_list ([number 1] ++ symbol "x" :: [seq_val empty]))))
    = Panic "unbound x".
Proof.
  split; [|split].
  - apply (proj1 (eval_application_order testEnv (symbol "nope") eq_refl)).
    reflexivity.
  - apply (proj1 (proj2 (eval_application_order testEnv (symbol "one") eq_refl))
             (cons (seq_val empty) empty) (number 1)).
    + reflexivity.
    + simpl. discriminate.
  - apply (proj2 (proj2 (eval_application_order testEnv (symbol "+") eq_refl))
             "+" native_builtinPlus [number 1] [number 1] (symbol "x")
             [seq_val empty] "unbound x").
    + reflexivity.
    + repeat constructor.
    + reflexivity.
Defined.

Lemma eval_arithmetic_witness :
  evalText testEnv ("(+ 1 (" ++ "* 2 3) (+))")
  = Ret (number (wrap_int64 (Zsum [1; 6; 0]))).
Proof.
  unfold evalText.
  replace (read ("(+ 1 (" ++ "* 2 3) (+))"))
    with (Ret (Ok (seq_val (cons (symbol "+") (cons (number 1)
            (cons (seq_val (cons (symbol "*") (cons (number 2) (cons (number 3) empty))))
               (cons (seq_val (cons (symbol "+") empty)) empty)))))))
    by (vm_compute; reflexivity).
  cbn [bind].
  apply (eval_arithmetic testEnv (symbol "+") _ "+" native_builtinPlus [1; 6; 0]).
  - reflexivity.
  - reflexivity.
  - repeat constructor; vm_compute; reflexivity.
Defined.

(** ** The panics of the evaluator *)

Ltac panic_of_value side :=
  match goal with
  | |- Panic (_ ++ pr ?a) = Panic _ -> _ =>
      intros [= <-]; side; exists a; reflexivity
  end.

Lemma call_panic_inv (f : native) (args : list val) (msg : string) :
  call f args = Panic msg ->
  (exists v, msg = "cannot add non-number " ++ pr v) \/
  (exists v, msg = "cannot multiply non-number " ++ pr v).
Proof.
  destruct f; cbn [call].
  - unfold builtinPlus. generalize 0.
    induction args as [|a args IH]; intros z; cbn [builtinPlus_loop];
      [discriminate|].
    destruct a; try (panic_of_value ltac:(left)). apply IH.
  - unfold builtinMul. generalize 1.
    induction args as [|a args IH]; intros z; cbn [builtinMul_loop];
      [discriminate|].
    destruct a; try (panic_of_value ltac:(right)). apply IH.
Qed.

Section PanicFacts.
Context {E : Type} `{env E}.

Lemma evalArgs_panic_inv (e : E) (sq : seq) :
  forall acc msg,
    evalArgs eval e sq acc = Panic msg ->
    exists x, (depth x <= depth_seq sq)%nat /\ eval e x = Panic msg.
Proof.
  induction sq as [|car cdr IH]; intros acc msg; cbn [evalArgs]; [discriminate|].
  destruct (eval e car) as [v|m|] eqn:Hcar; cbn [bind]; try discriminate.
  - intros Hp. destruct (IH _ _ Hp) as (x & Hx & Hpx).
    exists x. split; [simpl; lia|exact Hpx].
  - intros [= <-]. exists car. split; [simpl; lia|exact Hcar].
Qed.

Lemma eval_panic_inv (e : E) :
  forall n v, (depth v <= n)%nat ->
    forall msg, eval e v = Panic msg -> eval_panic msg.
Proof.
  induction n as [|n IH]; intros v Hle msg; [pose proof (depth_pos v); lia|].
  rewrite eval_unfold.
  destruct v as [name|i|b|name fn|sq]; cbn [eval_body]; try discriminate.
  - destruct (lookup e name); [discriminate|].
    intros [= <-]. left. eexists. reflexivity.
  - panic_of_value ltac:(do 5 right; left).
  - destruct sq as [|head tl]; cbn [first bind rest].
    { intros [= <-]. right. left. reflexivity. }
    simpl in Hle.
    assert (Hsub : forall x, (depth x <= depth_seq (cons head tl))%nat ->
                   forall m, eval e x = Panic m -> eval_panic m).
    { intros x Hx. apply IH. simpl in Hx. lia. }
    assert (Happ : evalApplication eval e head tl = Panic msg -> eval_panic msg).
    { unfold evalApplication.
      destruct (eval e head) as [vf|m|] eqn:Hhead; cbn [bind]; try discriminate.
      - destruct vf as [| | |bname bf|];
          try (panic_of_value ltac:(do 4 right; left)).
        destruct (evalArgs eval e tl []) as [args|m|] eqn:Hargs; cbn [bind];
          try discriminate.
        + intros Hc. apply call_panic_inv in Hc as [Hc|Hc];
            [do 6 right; left|do 7 right]; exact Hc.
        + intros [= <-]. destruct (evalArgs_panic_inv e tl _ _ Hargs) as (x & Hx & Hpx).
          apply (Hsub x); [simpl; lia|exact Hpx].
      - intros [= <-]. apply (Hsub head); [simpl; lia|exact Hhead]. }
    destruct head as [hname| | | |]; try exact Happ.
    destruct (String.eqb hname "if"); [|destruct (String.eqb hname "quote")];
      try exact Happ.
    + destruct tl as [|c [|a [|b [|x tl]]]];
        cbn [get3 first rest bind seq_empty negb];
        try (intros [= <-]; right; left; reflexivity).
      * pose proof (Hsub c) as Hc. pose proof (Hsub a) as Ha.
        pose proof (Hsub b) as Hb. simpl in Hc, Ha, Hb.
        destruct (eval e c) as [vc|m|] eqn:Hec; cbn [bind]; try discriminate.
        -- destruct (isTrue vc); [apply Ha|apply Hb]; lia.
        -- intros [= <-]. apply Hc; [lia|reflexivity].
      * intros [= <-]. do 3 right. left. exists (cons x tl). reflexivity.
    + destruct tl as [|x [|y tl]]; cbn [get1 first rest bind seq_empty negb];
        try discriminate.
      * intros [= <-]. right. left. reflexivity.
      * intros [= <-]. right. right. left. reflexivity.
Qed.

(** X17: in every environment and on every form [eval] terminates,
    with a value or with one of its own panics: an unbound symbol, [first]
    on the empty sequence, too many operands, a call of a value that is
    not a function, a function given as the form, a builtin given a value
    that is not a number.  In particular [rest] never panics in [eval]. *)
Theorem eval_outcomes (e : E) (v : val) :
  (exists r, eval e v = Ret r) \/
  (exists msg, eval e v = Panic msg /\ eval_panic msg /\
               msg <> "rest called on empty").
Proof.
  pose proof (eval_total e v) as Htot.
  destruct (eval e v) as [r|msg|] eqn:Hev; [left; eauto| |contradiction].
  right. exists msg. split; [reflexivity|].
  pose proof (eval_panic_inv e (depth v) v (le_n _) msg Hev) as Hp.
  split; [exact Hp|].
  intros ->.
  destruct Hp as [[x Hx]|[Hx|[Hx|[[x Hx]|[[x Hx]|[[x Hx]|[[x Hx]|[x Hx]]]]]]]];
    try discriminate Hx;
    apply (f_equal (substring 0 4)) in Hx; discriminate Hx.
Qed.

End PanicFacts.

(** ** The builtins as operations on int64 *)

Lemma Zsum_app (ns ms : list Z) : Zsum (ns ++ ms) = Zsum ns + Zsum ms.
Proof. induction ns as [|n ns IH]; simpl in *; [reflexivity|]. unfold Zsum in *. simpl. lia. Qed.

Lemma Zprod_app (ns ms : list Z) : Zprod (ns ++ ms) = Zprod ns * Zprod ms.
Proof.
  induction ns as [|n ns IH]; unfold Zprod in *; simpl; [lia|]. rewrite IH. ring.
Qed.

Lemma Zsum_Permutation (ns ms : list Z) : Permutation ns ms -> Zsum ns = Zsum ms.
Proof. unfold Zsum. induction 1; simpl; lia. Qed.

Lemma Zprod_Permutation (ns ms : list Z) : Permutation ns ms -> Zprod ns = Zprod ms.
Proof.
  unfold Zprod. induction 1; simpl; try congruence. ring.
Qed.

(** X18: on numbers the two builtins do not depend on the order of the
    arguments, and a call on two lists of arguments put together is the
    call on the results of the two lists: wrapping at every step loses
    nothing. *)
Theorem builtin_commutative_monoid (f : native) (ns ms : list Z) :
  (Permutation ns ms -> call f (map number ns) = call f (map number ms)) /\
  (forall r1 r2,
     call f (map number ns) = Ret (number r1) ->
     call f (map number ms) = Ret (number r2) ->
     call f (map number (ns ++ ms)) = call f [number r1; number r2]).
Proof.
  split.
  - intros Hp. rewrite !call_numbers.
    destruct f; [rewrite (Zsum_Permutation _ _ Hp)|rewrite (Zprod_Permutation _ _ Hp)];
      reflexivity.
  - intros r1 r2. rewrite !call_numbers. intros [= <-] [= <-].
    change [number ?a; number ?b] with (map number [a; b]).
    rewrite call_numbers. do 2 f_equal. destruct f.
    + rewrite Zsum_app. unfold Zsum at 3. cbn [fold_right].
      rewrite Z.add_0_r, <- wrap_int64_add_l, (Z.add_comm (wrap_int64 (Zsum ns))),
        <- wrap_int64_add_l, Z.add_comm. reflexivity.
    + rewrite Zprod_app. unfold Zprod at 3. cbn [fold_right].
      rewrite Z.mul_1_r, <- wrap_int64_mul_l, (Z.mul_comm (wrap_int64 (Zprod ns))),
        <- wrap_int64_mul_l, Z.mul_comm. reflexivity.
Qed.

Lemma builtin_commutative_monoid_witness :
  call native_builtinMul (map number [3; int64_max; 5])
    = call native_builtinMul (map number [5; 3; int64_max]) /\
  call native_builtinPlus (map number ([int64_max; 1] ++ [int64_max]))
    = call native_builtinPlus [number int64_min; number int64_max].
Proof.
  split.
  - apply (proj1 (builtin_commutative_monoid native_builtinMul
                    [3; int64_max; 5] [5; 3; int64_max])).
    symmetry. apply (Permutation_cons_append [3; int64_max] 5).
  - apply (proj2 (builtin_commutative_monoid native_builtinPlus
                    [int64_max; 1] [int64_max])); vm_compute; reflexivity.
Defined.

(** ** Larger environments *)

Section Extension.
Context {E E' : Type} {HE : env E} {HE' : env E'}.
Variables (e : E) (e' : E').
Hypothesis Hext : forall name x, lookup e name = Some x -> lookup e' name = Some x.

Lemma evalArgs_extension (sq : seq) :
  (forall x r, (depth x <= depth_seq sq)%nat -> eval e x = Ret r -> eval e' x = Ret r) ->
  forall acc args,
    evalArgs eval e sq acc = Ret args -> evalArgs eval e' sq acc = Ret args.
Proof.
  induction sq as [|car cdr IH]; intros Hsub acc args; cbn [evalArgs];
    [trivial|].
  destruct (eval e car) as [v| |] eqn:Hcar; cbn [bind]; try discriminate.
  rewrite (Hsub car v ltac:(simpl; lia) Hcar). cbn [bind].
  apply IH. intros x r Hx. apply Hsub. simpl. lia.
Qed.

Lemma eval_extension_depth :
  forall n v, (depth v <= n)%nat -> forall r, eval e v = Ret r -> eval e' v = Ret r.
Proof using Hext.
  induction n as [|n IH]; intros v Hle r; [pose proof (depth_pos v); lia|].
  rewrite !eval_unfold.
  destruct v as [name|i|b|name fn|sq]; cbn [eval_body]; trivial.
  - destruct (lookup e name) as [x|] eqn:Hl; [|discriminate].
    rewrite (Hext name x Hl). trivial.
  - destruct sq as [|head tl]; cbn [first bind rest]; [trivial|].
    simpl in Hle.
    assert (Hsub : forall x r, (depth x <= depth_seq (cons head tl))%nat ->
                   eval e x = Ret r -> eval e' x = Ret r).
    { intros x r0 Hx. apply IH. simpl in Hx. lia. }
    assert (Happ : evalApplication eval e head tl = Ret r ->
                   evalApplication eval e' head tl = Ret r).
    { unfold evalApplication.
      destruct (eval e head) as [vf| |] eqn:Hhead; cbn [bind]; try discriminate.
      rewrite (Hsub head vf ltac:(simpl; lia) Hhead). cbn [bind].
      destruct vf as [| | |bname bf|]; trivial.
      destruct (evalArgs eval e tl []) as [args| |] eqn:Hargs; cbn [bind];
        try discriminate.
      rewrite (evalArgs_extension tl
                 ltac:(intros x r0 Hx; apply Hsub; simpl; lia) [] args Hargs).
      trivial. }
    destruct head as [hname| | | |]; try exact Happ.
    destruct (String.eqb hname "if"); [|destruct (String.eqb hname "quote")];
      try exact Happ; [|trivial].
    destruct tl as [|c [|a [|b [|x tl]]]];
      cbn [get3 first rest bind seq_empty negb]; trivial.
    pose proof (Hsub c) as Hc. pose proof (Hsub a) as Ha.
    pose proof (Hsub b) as Hb. simpl in Hc, Ha, Hb.
    destruct (eval e c) as [vc| |] eqn:Hec; cbn [bind]; try discriminate.
    rewrite (Hc vc ltac:(lia) eq_refl). cbn [bind].
    destruct (isTrue vc); [apply Ha|apply Hb]; lia.
Qed.

End Extension.

(** X19: bindings added to an environment do not change what evaluates:
    if every binding of [e] is a binding of [e'], a form that has a value
    in [e] has the same value in [e']. *)
Theorem eval_env_extension {E E' : Type} `{env E} `{env E'} (e : E) (e' : E')
    (v r : val) :
  (forall name x, lookup e name = Some x -> lookup e' name = Some x) ->
  eval e v = Ret r -> eval e' v = Ret r.
Proof.
  intros Hext. apply (eval_extension_depth e e' Hext (depth v) v (le_n _)).
Qed.

Lemma eval_env_extension_witness :
  eval (<["two" := number 2]> testEnv)
       (seq_val (cons (symbol "+") (cons (symbol "one") (cons (number 5) empty))))
  = Ret (number 6).
Proof.
  apply (eval_env_extension testEnv (<["two" := number 2]> testEnv)).
  - intros name x Hl. unfold lookup, globalEnv_env in *.
    rewrite lookup_insert_ne; [exact Hl|].
    intros <-. vm_compute in Hl. discriminate Hl.
  - vm_compute. reflexivity.
Defined.

(** ** The reader and the evaluator together *)


Lemma pr_quote_form (v : val) : pr (quote_form v) = "(quote " ++ pr v ++ ")".
Proof.
  unfold quote_form. rewrite pr_seq_val. cbn [pr_elems pr_tail pr].
  norm_append. reflexivity.
Qed.

(** X20: quoting what was read gives it back: for a value [v] returned
    by [read], the text made of "(quote ", the print form of [v] and ")"
    is read and evaluated, in every environment, to [v]. *)
Theorem eval_quote_text {E : Type} `{env E} (e : E) (s : string) (v : val) :
  read s = Ret (Ok v) ->
  evalText e ("(quote " ++ pr v ++ ")") = Ret v.
Proof.
  intros Hread. apply read_readable in Hread.
  assert (Hq : readable (quote_form v)).
  { cbn [quote_form readable readable_seq]. repeat split; try exact Hread.
    vm_compute. discriminate. }
  pose proof (lexState_read_pr (quote_form v) "" "" Hq eq_refl eq_refl) as Hr.
  rewrite append_nil_r, append_nil_l, pr_quote_form in Hr.
  unfold evalText. rewrite Hr. cbn [bind].
  unfold quote_form. rewrite eval_unfold. reflexivity.
Qed.

Lemma eval_quote_text_witness :
  evalText testEnv ("(quote " ++ "(a (1 #t) -7)" ++ ")")
  = Ret (seq_val (cons (symbol "a")
       (cons (seq_val (cons (number 1) (cons (boolean true) empty)))
          (cons (number (-7)) empty)))).
Proof.
  apply (eval_quote_text testEnv "(a(1 #t)-7)"
           (seq_val (cons (symbol "a")
              (cons (seq_val (cons (number 1) (cons (boolean true) empty)))
                 (cons (number (-7)) empty))))).
  vm_compute. reflexivity.
Defined.



(** X22: an operator chosen by an [if]: when [c] is not false and [a]
    is not one of the special names, the call whose first element is
    [(if c a b)] is the call whose first element is [a]; when [c] is false
    and [b] is not a special name, it is the call whose first element is
    [b]. *)
Theorem eval_selected_operator {E : Type} `{env E} (e : E) (c a b : val)
    (args : seq) (vc : val) :
  eval e c = Ret vc ->
  (vc <> boolean false -> special_head a = false ->
   eval e (seq_val (cons (if_form c a b) args)) = eval e (seq_val (cons a args))) /\
  (vc = boolean false -> special_head b = false ->
   eval e (seq_val (cons (if_form c a b) args)) = eval e (seq_val (cons b args))).
Proof.
  intros Hc.
  assert (Hif : eval e (if_form c a b) = if isTrue vc then eval e a else eval e b).
  { rewrite eval_if_form, Hc. reflexivity. }
  split; intros Hvc Hsp.
  - rewrite (eval_app_form e (if_form c a b) args eq_refl),
      (eval_app_form e a args Hsp).
    unfold evalApplication. rewrite Hif.
    destruct (isTrue vc) eqn:Ht; [reflexivity|].
    apply isTrue_false_iff in Ht. contradiction.
  - rewrite (eval_app_form e (if_form c a b) args eq_refl),
      (eval_app_form e b args Hsp).
    unfold evalApplication. rewrite Hif, Hvc. reflexivity.
Qed.

Lemma eval_selected_operator_witness :
  eval testEnv (seq_val (cons (if_form (number 0) (symbol "+") (symbol "*"))
                           (cons (number 3) (cons (number 4) empty))))
  = eval testEnv (seq_val (cons (symbol "+") (cons (number 3) (cons (number 4) empty)))).
Proof.
  apply (proj1 (eval_selected_operator testEnv (number 0) (symbol "+") (symbol "*")
                  (cons (number 3) (cons (number 4) empty)) (number 0) eq_refl));
    [discriminate|reflexivity].
Defined.

(** ** The program *)

(** X23: [main] runs its seven reader tests and twelve evaluator tests
    to the end, without a panic, and writes one line for each. *)
Theorem main_output :
  main = Ret (String.concat newline
    [ "`  123  ` => 123";
      "`1-2` => 1-2";
      "`  #t` => #t";
      "`  #f` => #f";
      "`  12(  ` => 12";
      "`  (+ 1 2 () )` => (+ 1 2 ())";
      "`(if #f 1 2)` => (if #f 1 2)";
      "eval(123) => 123";
      "eval(#t) => #t";
      "eval(#f) => #f";
      "eval((if #f 1 2)) => 2";
      "eval((if 123 1 2)) => 1";
      "eval((if 123 (quote true) (quote false))) => true";
      "eval(one) => 1";
      "eval(+) => #<function:+>";
      "eval((+ 1 2 3)) => 6";
      "eval((" ++ "* 3 4)) => 12";
      "eval(((if #t + *" ++ ") 3 4)) => 7";
      "eval(((if #f + *" ++ ") 3 4)) => 12";
      "" ]).
Proof. vm_compute. reflexivity. Qed.
